(** * sparcur: a shallow embedding of [sparcur/core.py], [sparcur/cli.py]
    and [setup.py]

  Python values are modelled as follows.
  - [str] is a list of Unicode code points ([N]).  ASCII literals are
    written with [lit].
  - Python [int] is [Z] (unbounded).
  - An exception that leaves a function is a constructor of [exn];
    a function that may raise returns [res A].
  - Generators are modelled by the finite list of values they yield. *)

From Stdlib Require Import ZArith NArith Lia Ascii String DecimalString Sorting.Sorted Sorting.Permutation.
From stdpp Require Import base option list strings gmap.

Local Open Scope Z_scope.

(** ** Python-level plumbing shared by both modules *)

Module Py.

Definition char := N.
Definition str := list char.

(** ASCII literal to code points. *)
Definition lit (s : string) : str :=
  List.map N_of_ascii (list_ascii_of_string s).

Inductive exn :=
| IndexError
| ValueError
| OverflowError
| TypeError
| FileExistsError
| MalformedOrcidError
| MissingSecretError.

Inductive res (A : Type) :=
| Ok (a : A)
| Raise (e : exn).
Arguments Ok {A} a.
Arguments Raise {A} e.

Definition bind {A B} (m : res A) (k : A -> res B) : res B :=
  match m with
  | Ok a => k a
  | Raise e => Raise e
  end.

(** [str.isspace] on one character: the characters removed by
    [str.strip()] without arguments. *)
Definition isspace (c : char) : bool :=
  match c with
  | 9 | 10 | 11 | 12 | 13 | 28 | 29 | 30 | 31 | 32
  | 133 | 160 | 5760 | 8232 | 8233 | 8239 | 8287 | 12288 => true
  | _ => (8192 <=? c)%N && (c <=? 8202)%N
  end%N.

(** [str.isdigit] on one character.  Only the ASCII digits are
    tabulated; the Unicode digit table is not part of the repository.
    On an ASCII character the table is Python's, and the facts that
    rest on it are stated for such characters. *)
Definition isdigit (c : char) : bool := (48 <=? c)%N && (c <=? 57)%N.

(** [str.lower] on one character.  Only the ASCII letters are
    tabulated; other code points are left as they are.  On a string of
    ASCII characters this is Python's [lower], and the facts that rest
    on it are stated for such strings. *)
Definition lower_char (c : char) : char :=
  if (65 <=? c)%N && (c <=? 90)%N then (c + 32)%N else c.

Definition lower (s : str) : str := List.map lower_char s.

Fixpoint lstrip (s : str) : str :=
  match s with
  | c :: s' => if isspace c then lstrip s' else s
  | [] => []
  end.

Definition rstrip (s : str) : str := rev (lstrip (rev s)).

Definition strip (s : str) : str := rstrip (lstrip s).

(** [s.replace(old, new)] where [old] is a single character, which is
    the only way the sources call it. *)
Fixpoint replace (old : char) (new : str) (s : str) : str :=
  match s with
  | [] => []
  | c :: s' =>
      if (c =? old)%N then new ++ replace old new s'
      else c :: replace old new s'
  end.

(** [int(c)] for a one-character string.  [int] reads every decimal
    digit of Unicode with its value and raises [ValueError] on any
    other character.  Which characters are decimal digits is Python's
    own table, not the repository's: it is the parameter [decimal]. *)
Definition int_of_char (decimal : char -> option Z) (c : char) : res Z :=
  match decimal c with
  | Some v => Ok v
  | None => Raise ValueError
  end.

End Py.

Import Py.

(** ** sparcur/core.py *)

Module Core.

(** Code points named in [python_identifier]. *)
Definition c_lparen : char := 40%N.
Definition c_rparen : char := 41%N.
Definition c_space : char := 32%N.
Definition c_plus : char := 43%N.
Definition c_ellipsis : char := 8230%N.
Definition c_dot : char := 46%N.
Definition c_comma : char := 44%N.
Definition c_slash : char := 47%N.
Definition c_question : char := 63%N.
Definition c_hash : char := 35%N.
Definition c_hyphen : char := 45%N.
Definition c_colon : char := 58%N.
Definition c_x83 : char := 131%N.
Definition c_underscore : char := 95%N.
Definition c_X : char := 88%N.

(** The chain of calls that builds [ident], lines 56-71. *)
Definition normalize (string : str) : str :=
  lower
    (replace c_x83 []
    (replace c_colon [c_underscore]
    (replace c_hyphen [c_underscore]
    (replace c_hash (lit "number")
    (replace c_question [c_underscore]
    (replace c_slash [c_underscore]
    (replace c_comma [c_underscore]
    (replace c_dot [c_underscore]
    (replace c_ellipsis []
    (replace c_plus []
    (replace c_space [c_underscore]
    (replace c_rparen []
    (replace c_lparen []
    (strip string)))))))))))))).

(** [python_identifier], lines 54-75.  [ident[0]] raises [IndexError]
    on the empty string. *)
Definition python_identifier (string : str) : res str :=
  let ident := normalize string in
  match ident with
  | [] => Raise IndexError
  | c0 :: _ =>
      if isdigit c0 then Ok (lit "n_" ++ ident) else Ok ident
  end.

(** *** OrcidId.checksumValid, lines 97-114 *)

(** [*digits, check_string = s]: unpacking needs at least one element. *)
Fixpoint unpack_last (s : str) : res (str * char) :=
  match s with
  | [] => Raise ValueError
  | [c] => Ok ([], c)
  | c :: s' =>
      bind (unpack_last s') (fun '(ds, l) => Ok (c :: ds, l))
  end.

(** The [for digit_string in digits] loop, threading [total]. *)
Fixpoint total_loop (decimal : char -> option Z) (total : Z) (digits : str) : res Z :=
  match digits with
  | [] => Ok total
  | digit_string :: rest =>
      bind (int_of_char decimal digit_string) (fun d =>
      total_loop decimal ((total + d) * 2) rest)
  end.

Definition checksum_body (decimal : char -> option Z) (suffix : str) : res bool :=
  bind (unpack_last (replace c_hyphen [] suffix)) (fun '(digits, check_string) =>
  bind (if (check_string =? c_X)%N then Ok 10
        else int_of_char decimal check_string) (fun check =>
  bind (total_loop decimal 0 digits) (fun total =>
  let remainder := total mod 11 in
  let result := (12 - remainder) mod 11 in
  Ok (result =? check)))).

(** [try: ... except ValueError as e: raise self.MalformedOrcidError] *)
Definition checksumValid (decimal : char -> option Z) (suffix : str) : res bool :=
  match checksum_body decimal suffix with
  | Raise ValueError => Raise MalformedOrcidError
  | r => r
  end.

End Core.

Module FileSizeM.

(** Python numbers as [sizeof_fmt] sees them: [num] starts as the
    [int] itself and becomes a [float] at the first [num /= 1024.0].
    Every float that arises is a 53-bit integer divided by a power of
    two, so [PyFloat m e] stands for the binary64 value [m / 2^e]
    exactly. *)
Inductive num :=
| PyInt (n : Z)
| PyFloat (m : Z) (e : Z).

(** [float(n)] for [n >= 0]: round to 53 significant bits, ties to
    even; [OverflowError] beyond the binary64 range. *)
Definition to_float (n : Z) : res Z :=
  let a := Z.abs n in
  let b := if a =? 0 then 0 else Z.log2 a + 1 in
  let r :=
    if b <=? 53 then a
    else
      let sh := b - 53 in
      let q := a / 2 ^ sh in
      let rest := a mod 2 ^ sh in
      let half := 2 ^ (sh - 1) in
      let q' := if (half <? rest) || ((rest =? half) && Z.odd q)
                then q + 1 else q in
      q' * 2 ^ sh in
  if 2 ^ 1024 <=? r then Raise OverflowError else Ok (Z.sgn n * r).

(** [abs(num) < 1024.0] *)
Definition abs_lt_1024 (x : num) : bool :=
  match x with
  | PyInt n => Z.abs n <? 1024
  | PyFloat m e => Z.abs m <? 1024 * 2 ^ e
  end.

(** [num /= 1024.0]; dividing a float of this size by a power of two
    is exact. *)
Definition div_1024 (x : num) : res num :=
  match x with
  | PyInt n => bind (to_float n) (fun m => Ok (PyFloat m 10))
  | PyFloat m e => Ok (PyFloat m (e + 10))
  end.

(** Nearest integer to [m / 2^e], ties to even, for [m >= 0]. *)
Definition round_half_even (m e : Z) : Z :=
  if e <=? 0 then m
  else
    let q := m / 2 ^ e in
    let rest := m mod 2 ^ e in
    let half := 2 ^ (e - 1) in
    if (half <? rest) || ((rest =? half) && Z.odd q) then q + 1 else q.

Definition decimal (z : Z) : str :=
  lit (NilZero.string_of_uint (N.to_uint (Z.to_N z))).

Definition sign_of (m : Z) : str := if m <? 0 then lit "-" else [].

Definition as_float (x : num) : res (Z * Z) :=
  match x with
  | PyInt n => bind (to_float n) (fun m => Ok (m, 0))
  | PyFloat m e => Ok (m, e)
  end.

(** ["%0.0f" % num] *)
Definition fmt_0f (x : num) : res str :=
  bind (as_float x) (fun '(m, e) =>
  Ok (sign_of m ++ decimal (round_half_even (Z.abs m) e))).

(** ["%.1f" % num] *)
Definition fmt_1f (x : num) : res str :=
  bind (as_float x) (fun '(m, e) =>
  let t := round_half_even (10 * Z.abs m) e in
  Ok (sign_of m ++ decimal (t / 10) ++ lit "." ++ decimal (t mod 10))).

Definition units : list str :=
  [lit ""; lit "K"; lit "M"; lit "G"; lit "T"; lit "P"; lit "E"; lit "Z"].

(** The [for unit in [...]] loop of [sizeof_fmt] and the fall-through
    [return] after it, lines 241-246. *)
Fixpoint sizeof_fmt_loop (us : list str) (x : num) (suffix : str) : res str :=
  match us with
  | [] => bind (fmt_1f x) (fun s => Ok (s ++ lit "Yi" ++ suffix))
  | unit :: us' =>
      if abs_lt_1024 x
      then bind (fmt_0f x) (fun s => Ok (s ++ unit ++ suffix))
      else bind (div_1024 x) (fun x' => sizeof_fmt_loop us' x' suffix)
  end.

Definition sizeof_fmt (n : Z) : res str := sizeof_fmt_loop units (PyInt n) [].

(** [FileSize.hr], lines 237-251.  [self] is a [FileSize], hence never
    [None]. *)
Definition hr (self : Z) : res str :=
  if 0 <=? self then sizeof_fmt self else Ok (lit "??").

(** [FileSize.mb < limit] for an [int] limit (line 235 and its uses in
    [cli.py]): [self / 1024 ** 2 < limit].  True division by a power of
    two only moves the exponent, so for cached sizes below [2^53] the
    comparison is the integer one; [FileSizeMb.mb_below] is the
    comparison on floats for every size, and the facts that rest on
    the integer one are stated for sizes below [2^53]. *)
Definition mb_lt (self limit : Z) : bool := self <? limit * 1024 ^ 2.

End FileSizeM.

(** ** sparcur/cli.py: paths, options and the traversals *)

Module Cli.

(** *** Local paths as the commands see them

    [sparcur.paths] is not part of these sources; a local path is
    modelled by what the commands ask of it: [is_dir], [is_file],
    [is_broken_symlink], [children], [rchildren], and the cached
    metadata fields [size] and [file_id]. *)
#[local] Unset Elimination Schemes.
Inductive Path :=
| File (name : string) (broken : bool) (size : option Z) (file_id : option string)
| Dir (name : string) (children : list Path).
#[local] Set Elimination Schemes.

Definition path_name (p : Path) : string :=
  match p with File n _ _ _ => n | Dir n _ => n end.

Definition is_dir (p : Path) : bool :=
  match p with Dir _ _ => true | File _ _ _ _ => false end.

Definition is_file (p : Path) : bool :=
  match p with File _ b _ _ => negb b | Dir _ _ => false end.

Definition is_broken_symlink (p : Path) : bool :=
  match p with File _ b _ _ => b | Dir _ _ => false end.

Definition children (p : Path) : list Path :=
  match p with Dir _ cs => cs | File _ _ _ _ => [] end.

Definition meta_size (p : Path) : option Z :=
  match p with File _ _ s _ => s | Dir _ _ => None end.

Definition meta_file_id (p : Path) : option string :=
  match p with File _ _ _ i => i | Dir _ _ => None end.

(** Modelled from the spec: [rchildren] lives in [sparcur/paths.py];
    the spec calls it the walk over "every descendant" and line 811
    equates it with [path.rglob('*')]: every descendant, parents before
    their own children. *)
Fixpoint rchildren (p : Path) : list Path :=
  match p with
  | File _ _ _ _ => []
  | Dir _ cs => flat_map (fun c => c :: rchildren c) cs
  end.

(** *** Options, lines 107-121, and the flags read by the commands *)
Record Options := {
  arg_limit : Z;               (* int(self.args['--limit']) *)
  arg_level : option Z;        (* --level, when given *)
  only_no_file_id : bool;
  empty : bool;
  only_meta : bool;
  exists_flag : bool;          (* --exists *)
  ttl : bool;
  json : bool;
  datasets : bool;
  debug : bool;
  project_id_arg : option string
}.

(** [Options.limit]: [None] for a negative argument. *)
Definition limit (o : Options) : option Z :=
  if 0 <=? arg_limit o then Some (arg_limit o) else None.

(** [Options.level] *)
Definition level (o : Options) : option Z := arg_level o.

(** *** Main._build_paths, lines 281-316 *)

Definition no_file_id (p : Path) : bool :=
  is_broken_symlink p && bool_decide (meta_file_id p = None).

(** One turn of the [for path in paths] loop of [inner]: the values
    yielded for [path] at depth [level]. *)
Fixpoint inner_path (o : Options) (lvl : Z) (path : Path) {struct path} : list Path :=
  let descend :=
    match level o with
    | None =>
        if only_no_file_id o
        then List.filter no_file_id (rchildren path)
        else rchildren path
    | Some stop =>
        if lvl <=? stop
        then match path with
             | Dir _ cs => flat_map (inner_path o (lvl + 1)) cs
             | File _ _ _ _ => []
             end
        else []
    end in
  if only_no_file_id o then
    if no_file_id path then [path]            (* yield path; continue *)
    else descend
  else if empty o then
    if is_dir path then
      match children path with
      | [] => path :: descend                  (* StopIteration: yield path *)
      | _ :: _ => descend
      end
    else []                                    (* continue *)
  else path :: descend.

Definition inner (o : Options) (paths : list Path) (lvl : Z) : list Path :=
  flat_map (inner_path o lvl) paths.

Definition _build_paths (o : Options) (paths : list Path) : list Path :=
  inner o paths 0.

(** *** Main.find, lines 676-690: the size-limit filter

    A match of [path.rglob(pattern)] that is not a directory, as the
    filter reads it: [p.cache.meta.size], [p.exists()] and, for an
    existing file, [p.size]. *)
Record Match := {
  m_name : string;
  cached_size : option Z;      (* p.cache.meta.size *)
  local_size : option Z        (* Some (p.size) when p.exists() *)
}.

Definition p_exists (p : Match) : bool := bool_decide (is_Some (local_size p)).

Inductive LogRecord :=
| LogInfo (message : string) (subject : string).

Definition truncated_msg : string := "Truncated transfer detected for".

(** The condition of the list comprehension for one [p]; the second
    component is what [log.info] was called with.  Python reads
    [a or b or c and d or e and f and g and h] as
    [a or b or (c and d) or (e and f and g and h)], and
    [not log.info(...)] is [True]. *)
Definition keep (search_exists : bool) (lim : Z) (p : Match) : bool * list LogRecord :=
  match cached_size p with
  | None => (true, [])
  | Some size =>
      if search_exists then (true, [])
      else if negb (p_exists p) && FileSizeM.mb_lt size lim then (true, [])
      else
        match local_size p with
        | Some p_size =>
            if negb (p_size =? size)
            then (FileSizeM.mb_lt size lim, [LogInfo truncated_msg (m_name p)])
            else (false, [])
        | None => (false, [])
        end
  end.

(** [paths = [p for p in paths if ...]] together with the log. *)
Fixpoint limit_filter (search_exists : bool) (lim : Z) (paths : list Match)
  : list Match * list LogRecord :=
  match paths with
  | [] => ([], [])
  | p :: rest =>
      let '(k, l) := keep search_exists lim p in
      let '(ps, ls) := limit_filter search_exists lim rest in
      (if k then p :: ps else ps, l ++ ls)
  end.

(** Lines 678-688: the filter runs only [if self.options.limit], that
    is for a limit that is neither [None] nor [0]. *)
Definition find_paths (o : Options) (paths : list Match) : list Match * list LogRecord :=
  match limit o with
  | Some lim =>
      if lim =? 0 then (paths, [])
      else limit_filter (exists_flag o) lim paths
  | None => (paths, [])
  end.

(** *** Report.size, lines 799-856 *)

Record Row := {
  r_name : string;             (* r[0] *)
  r_local : Z;                 (* r[1] = FileSize(total - outstanding) *)
  r_outstanding : Z;           (* r[2] *)
  r_total : Z;                 (* r[3] *)
  r_uncertain : bool;          (* r[4] *)
  r_lf : Z;                    (* r[5] = tf - ff *)
  r_ff : Z;                    (* r[6] *)
  r_tf : Z;                    (* r[7] *)
  r_td : Z                     (* r[8] *)
}.

Record Acc := {
  outstanding : Z; total : Z; tf : Z; ff : Z; td : Z; uncertain : bool
}.

(** One turn of [for p, m in path_meta.items()], lines 819-838. *)
Definition size_step (a : Acc) (p : Path) : Acc :=
  if is_file p || is_broken_symlink p then
    match meta_size p with
    | None =>
        {| outstanding := outstanding a; total := total a; tf := tf a;
           ff := ff a; td := td a; uncertain := true |}
    | Some s =>
        let total' := if s =? 0 then total a else total a + s in
        if is_broken_symlink p then
          {| outstanding := if s =? 0 then outstanding a else outstanding a + s;
             total := total'; tf := tf a + 1; ff := ff a + 1; td := td a;
             uncertain := uncertain a |}
        else
          {| outstanding := outstanding a; total := total'; tf := tf a + 1;
             ff := ff a; td := td a; uncertain := uncertain a |}
    end
  else if is_dir p then
    {| outstanding := outstanding a; total := total a; tf := tf a;
       ff := ff a; td := td a + 1; uncertain := uncertain a |}
  else a.

Definition size_row (path : Path) : Row :=
  let a := fold_left size_step (rchildren path)
             {| outstanding := 0; total := 0; tf := 0; ff := 0; td := 0;
                uncertain := false |} in
  {| r_name := path_name path;
     r_local := total a - outstanding a;
     r_outstanding := outstanding a;
     r_total := total a;
     r_uncertain := uncertain a;
     r_lf := tf a - ff a;
     r_ff := ff a;
     r_tf := tf a;
     r_td := td a |}.

(** [for d in dirs: if not Path(d).is_dir(): continue ...] *)
Definition size_data (dirs : list Path) : list Row :=
  List.map size_row (List.filter is_dir dirs).

(** The sort key [lambda r: (r[4], -r[3])] and the order of Python
    tuples [(bool, int)]. *)
Definition sort_key (r : Row) : bool * Z := (r_uncertain r, - r_total r).

Definition key_lt (a b : bool * Z) : bool :=
  match fst a, fst b with
  | false, true => true
  | true, false => false
  | _, _ => snd a <? snd b
  end.

(** [sorted(data, key=...)]: a stable sort that compares keys with
    [<] only.  An element goes in front of the first element of the
    already sorted rest whose key is strictly smaller. *)
Fixpoint insert_sorted {A} (key : A -> bool * Z) (x : A) (l : list A) : list A :=
  match l with
  | [] => [x]
  | y :: l' =>
      if key_lt (key y) (key x) then y :: insert_sorted key x l'
      else x :: l
  end.

Definition sorted {A} (key : A -> bool * Z) (l : list A) : list A :=
  fold_right (insert_sorted key) [] l.

Inductive Cell :=
| CStr (s : str)
| CText (s : string)
| CInt (z : Z)
| CErr (e : exn).

Definition hr_cell (z : Z) : Cell :=
  match FileSizeM.hr z with
  | Ok s => CStr s
  | Raise e => CErr e
  end.

(** Lines 850-852 *)
Definition format_row (r : Row) : list Cell :=
  [CText (r_name r); hr_cell (r_local r); hr_cell (r_outstanding r);
   (if r_uncertain r then CStr (lit "??") else hr_cell (r_total r));
   CInt (r_lf r); CInt (r_ff r); CInt (r_tf r); CInt (r_td r)].

Definition size_sorted (dirs : list Path) : list Row :=
  sorted sort_key (size_data dirs).

Definition header : list Cell :=
  [CText "Folder"; CText "Local"; CText "To Retrieve"; CText "Total";
   CText "L"; CText "R"; CText "T"; CText "TD"].

Definition size_rows (dirs : list Path) : list (list Cell) :=
  header :: List.map format_row (size_sorted dirs).

End Cli.

(** ** sparcur/cli.py: commands that act on the file system and the process *)

Module Proc.

(** A location on disk, as its components; [p / name] is [child]. *)
Definition loc := list string.

Definition parent (p : loc) : loc := removelast p.
Definition child (p : loc) (name : string) : loc := p ++ [name].

(** [p.with_suffix(suffix)] for a final component without a dot, which
    is what [curation-export] and the dataset identifiers are. *)
Definition with_suffix (p : loc) (suffix : string) : loc :=
  removelast p ++ [(List.last p "" ++ suffix)%string].

Inductive fsnode :=
| FDir
| FFile (content : string)
| FSymlink (target : loc).

(** What the process does to the outside, in order. *)
Inductive event :=
| EvPrint (message : string)
| EvMkdir (p : loc)
| EvUnlink (p : loc)
| EvSymlink (link target : loc)
| EvWrite (p : loc) (content : string)
| EvEmbed.

Record world := { fs : gmap loc fsnode; trace : list event }.

Inductive outcome (A : Type) :=
| Val (a : A)
| Exit (code : Z)              (* sys.exit(code) *)
| Exc (e : exn).               (* an uncaught exception *)
Arguments Val {A} a.
Arguments Exit {A} code.
Arguments Exc {A} e.

Definition M (A : Type) : Type := world -> outcome A * world.

Definition ret {A} (a : A) : M A := fun w => (Val a, w).

Definition bindM {A B} (m : M A) (k : A -> M B) : M B := fun w =>
  match m w with
  | (Val a, w') => k a w'
  | (Exit c, w') => (Exit c, w')
  | (Exc e, w') => (Exc e, w')
  end.

Declare Scope proc_scope.
Delimit Scope proc_scope with proc.
Bind Scope proc_scope with M.
Notation "x <- m ;; k" := (bindM m (fun x => k))
  (at level 100, m at next level, right associativity) : proc_scope.
Notation "m ;; k" := (bindM m (fun _ => k))
  (at level 100, right associativity) : proc_scope.

Definition emit (ev : event) : M unit := fun w =>
  (Val tt, {| fs := fs w; trace := trace w ++ [ev] |}).

Definition print (message : string) : M unit := emit (EvPrint message).
Definition sys_exit {A} (code : Z) : M A := fun w => (Exit code, w).
Definition raise {A} (e : exn) : M A := fun w => (Exc e, w).

(** [p.exists()] follows a symbolic link to its target. *)
Definition path_exists (p : loc) : M bool := fun w =>
  (Val match fs w !! p with
       | None => false
       | Some (FSymlink t) => bool_decide (is_Some (fs w !! t))
       | Some _ => true
       end, w).

Definition is_symlink (p : loc) : M bool := fun w =>
  (Val match fs w !! p with Some (FSymlink _) => true | _ => false end, w).

(** All proper prefixes of [p] and [p] itself become directories when
    nothing is there yet. *)
Fixpoint make_dirs (pre : loc) (rest : loc) (m : gmap loc fsnode) : gmap loc fsnode :=
  match rest with
  | [] => m
  | x :: rest' =>
      let q := pre ++ [x] in
      make_dirs q rest' (match m !! q with None => <[q := FDir]> m | Some _ => m end)
  end.

(** [p.mkdir(parents=True)] *)
Definition mkdir_parents (p : loc) : M unit := fun w =>
  match fs w !! p with
  | Some _ => (Exc FileExistsError, w)
  | None => (Val tt, {| fs := make_dirs [] p (fs w); trace := trace w ++ [EvMkdir p] |})
  end.

(** [p.mkdir()] *)
Definition mkdir (p : loc) : M unit := fun w =>
  match fs w !! p with
  | Some _ => (Exc FileExistsError, w)
  | None => (Val tt, {| fs := <[p := FDir]> (fs w); trace := trace w ++ [EvMkdir p] |})
  end.

Definition unlink (p : loc) : M unit := fun w =>
  (Val tt, {| fs := delete p (fs w); trace := trace w ++ [EvUnlink p] |}).

Definition symlink_to (link target : loc) : M unit := fun w =>
  match fs w !! link with
  | Some _ => (Exc FileExistsError, w)
  | None => (Val tt, {| fs := <[link := FSymlink target]> (fs w);
                        trace := trace w ++ [EvSymlink link target] |})
  end.

(** [with open(out, mode) as f: f.write(content)] *)
Definition write_file (out : loc) (content : string) : M unit := fun w =>
  (Val tt, {| fs := <[out := FFile content]> (fs w);
              trace := trace w ++ [EvWrite out content] |}).

(** [list(p.children)] *)
Definition list_children (p : loc) : M (list loc) := fun w =>
  (Val (List.filter (fun q => bool_decide (q <> [] /\ parent q = p))
          (List.map fst (map_to_list (fs w)))), w).

Fixpoint for_each {A} (xs : list A) (body : A -> M unit) : M unit :=
  match xs with
  | [] => ret tt
  | x :: xs' => (body x;; for_each xs' body)%proc
  end.

(** A Python attribute that the code reads without knowing whether it
    is a plain value or a bound method. *)
Inductive pyattr :=
| Property (value : bool)
| Method (call : bool).        (* [call] is what [attr()] returns *)

(** Truth value of the attribute itself: a bound method is an object
    and therefore true. *)
Definition truthy (a : pyattr) : bool :=
  match a with
  | Property v => v
  | Method _ => true
  end.

Definition show (p : loc) : string := String.concat "/" p.

End Proc.

Module Main.
Import Proc.
Local Open Scope proc_scope.

(** What [export] reads from its surroundings.  [Integrator] and
    [Summary] belong to [sparcur.curation], which is not among these
    sources; their already serialised outputs are inputs here. *)
Record ExportEnv := {
  cwd : loc;                               (* Path.cwd() *)
  cwd_cache_anchor : loc;                  (* cwd.cache.anchor *)
  cwd_cache_is_dataset : pyattr;           (* cwd.cache.is_dataset *)
  project_path : loc;
  project_id : string;
  timestamp : string;
  ft_id : string;                          (* Integrator(cwd).id *)
  ft_data : string;                        (* json.dump(ft.data, ...) *)
  ft_ttl : string;
  summary_xml : list (string * string);
  summary_data : string;
  summary_ttl : string;
  summary_disco : list (string * string);
  summary_iter : list (string * string)    (* (d.id, d.ttl) for d in summary *)
}.

(** Lines 478-484 *)
Definition export_base (e : ExportEnv) : loc :=
  child (child (parent (project_path e)) "export") (project_id e).

Definition LATEST (e : ExportEnv) : loc :=
  child (child (child (parent (project_path e)) "export") (project_id e)) "LATEST".

(** Lines 506-514 and, word for word again, lines 550-558. *)
Definition new_snapshot (dump_path latest_path : loc) : M unit :=
  there <- path_exists dump_path;;
  if there then ret tt
  else
    mkdir_parents dump_path;;
    latest_there <- path_exists latest_path;;
    (if latest_there then
       link <- is_symlink latest_path;;
       if link then unlink latest_path else raise TypeError
     else ret tt);;
    symlink_to latest_path dump_path.

(** Lines 516-542 *)
Definition export_dataset (o : Cli.Options) (e : ExportEnv) : M unit :=
  let dump_path := child (child (child (export_base e) "datasets") (ft_id e)) (timestamp e) in
  let latest_path := LATEST e in
  new_snapshot dump_path latest_path;;
  let outputs :=
    (if Cli.json o then [(ft_data e, ".json")] else []) ++
    (if Cli.ttl o then [(ft_ttl e, ".ttl")] else []) in
  let filepath := child dump_path "curation-export" in
  for_each outputs (fun '(content, suffix) =>
    let out := with_suffix filepath suffix in
    write_file out content;;
    print ("dataset graph exported to " ++ show out)).

(** Lines 544-595 *)
Definition export_project (o : Cli.Options) (e : ExportEnv) : M unit :=
  let dump_path := child (export_base e) (timestamp e) in
  let latest_path := LATEST e in
  new_snapshot dump_path latest_path;;
  let filepath := child dump_path "curation-export" in
  for_each (summary_xml e) (fun '(xml_name, xml) =>
    write_file (with_suffix filepath ("." ++ xml_name ++ ".xml")) xml);;
  write_file (with_suffix filepath ".json") (summary_data e);;
  write_file (with_suffix filepath ".ttl") (summary_ttl e);;
  for_each (summary_disco e) (fun '(table_name, tabular) =>
    write_file (with_suffix filepath ("." ++ table_name ++ ".tsv")) tabular);;
  if Cli.datasets o then
    let dataset_dump_path := child dump_path "datasets" in
    mkdir dataset_dump_path;;
    for_each (summary_iter e) (fun '(d_id, d_ttl) =>
      let out := with_suffix (child dataset_dump_path d_id) ".ttl" in
      write_file out d_ttl;;
      print ("dataset graph exported to " ++ show out))
  else if Cli.debug o then emit EvEmbed
  else ret tt.

(** [Main.export], lines 491-595 *)
Definition export (o : Cli.Options) (e : ExportEnv) : M unit :=
  let format_specified := Cli.ttl o || Cli.json o in
  if negb (bool_decide (cwd e = cwd_cache_anchor e)) && format_specified then
    if negb (truthy (cwd_cache_is_dataset e)) then
      print (show (cwd e) ++ " is not at dataset level!");;
      sys_exit 123
    else export_dataset o e
  else export_project o e.

(** What [clone] reads from its surroundings: the remote's answer and
    the cache root search of [sparcur.paths]. *)
Record CloneEnv := {
  clone_cwd : loc;
  remote_project_name : res string;        (* BFLocal(project_id).project_name *)
  find_cache_root : option loc;            (* anchor_local.find_cache_root() *)
  pull : loc -> M unit                     (* with anchor: self.pull() *)
}.

(** [Main.clone], lines 330-359 *)
Definition clone (o : Cli.Options) (e : CloneEnv) : M unit :=
  match Cli.project_id_arg o with
  | None =>
      print "no remote project id listed";;
      sys_exit 4
  | Some project_id =>
      match remote_project_name e with
      | Raise MissingSecretError =>
          print ("missing api secret entry for " ++ project_id);;
          sys_exit 11
      | Raise other => raise other
      | Ok project_name =>
          let anchor_local := child (clone_cwd e) project_name in
          match find_cache_root e with
          | Some root =>
              (* [show root] stands for [repr(root.resolve())], whose text
                 is that of the absent [sparcur.paths] *)
              let message := ("fatal: already in project located at " ++ show root)%string in
              print message;;
              sys_exit 3
          | None =>
              let anchor := anchor_local in
              there <- path_exists anchor;;
              (if there then
                 cs <- list_children anchor;;
                 match cs with
                 | _ :: _ =>
                     let message := ("fatal: destination path " ++ show anchor
                                     ++ " already exists and is not an empty directory.")%string in
                     sys_exit 2
                 | [] => ret tt
                 end
               else ret tt);;
              pull e anchor
          end
      end
  end.

End Main.

(** ** Predicates used to state the properties *)

Module Props.
Import Core.

(** The replacements and the lowering of [python_identifier], without
    the leading [strip]. *)
Definition chain (s : str) : str :=
  lower
    (replace c_x83 []
    (replace c_colon [c_underscore]
    (replace c_hyphen [c_underscore]
    (replace c_hash (lit "number")
    (replace c_question [c_underscore]
    (replace c_slash [c_underscore]
    (replace c_comma [c_underscore]
    (replace c_dot [c_underscore]
    (replace c_ellipsis []
    (replace c_plus []
    (replace c_space [c_underscore]
    (replace c_rparen []
    (replace c_lparen [] s))))))))))))).

(** The characters that [python_identifier] deletes. *)
Definition is_deleted (c : char) : bool :=
  ((c =? c_lparen) || (c =? c_rparen) || (c =? c_plus)
   || (c =? c_ellipsis) || (c =? c_x83))%N.


(** The ORCID checksum in the words of the specification: the value
    of a digit, the value of the check character, and the fold
    [total = (total + digit) * 2] over the digits from left to right.
    A digit is a character that [int] reads as one, that is a
    character of the table [decimal]. *)
Definition is_digit (decimal : char -> option Z) (c : char) : bool :=
  match decimal c with
  | Some _ => true
  | None => false
  end.

Definition digit_value (decimal : char -> option Z) (c : char) : Z :=
  match decimal c with
  | Some v => v
  | None => 0
  end.

Definition check_value (decimal : char -> option Z) (c : char) : Z :=
  if (c =? c_X)%N then 10 else digit_value decimal c.

Definition spec_total (decimal : char -> option Z) (digits : str) : Z :=
  fold_left (fun total c => (total + digit_value decimal c) * 2) digits 0.

Definition all_digits (decimal : char -> option Z) (s : str) : Prop :=
  Forall (fun c => is_digit decimal c = true) s.

(** A de-hyphenated suffix that parses: digits, then a digit or [X]. *)
Definition parses (decimal : char -> option Z) (s : str) : Prop :=
  exists ds c, s = ds ++ [c] /\ all_digits decimal ds /\
               (is_digit decimal c = true \/ c = c_X).

(** What every version of Python's table has: the ASCII digits with
    their values and no other ASCII character, and no value outside
    0 to 9. *)
Definition ascii_decimal (c : char) : option Z :=
  if isdigit c then Some (Z.of_N c - 48) else None.

Definition extends_ascii (decimal : char -> option Z) : Prop :=
  forall c, (c < 128)%N -> decimal c = ascii_decimal c.

Definition decimal_values (decimal : char -> option Z) : Prop :=
  forall c v, decimal c = Some v -> 0 <= v <= 9.

(** A sample of the table: the ASCII digits and the Arabic-Indic
    digits, U+0660 to U+0669. *)
Definition sample_decimal (c : char) : option Z :=
  if isdigit c then Some (Z.of_N c - 48)
  else if ((1632 <=? c) && (c <=? 1641))%N then Some (Z.of_N c - 1632)
  else None.



(** A match whose cached size, when known, is below [2^53] bytes, so
    that its size in megabytes is an exact float. *)
Definition modest (p : Cli.Match) : bool :=
  match Cli.cached_size p with
  | Some size => Z.abs size <? 2 ^ 53
  | None => true
  end.

(** Induction over a directory tree, children included. *)
Fixpoint Path_tree_ind (P : Cli.Path -> Prop)
    (HF : forall n b s i, P (Cli.File n b s i))
    (HD : forall n cs, Forall P cs -> P (Cli.Dir n cs))
    (p : Cli.Path) {struct p} : P p :=
  match p with
  | Cli.File n b s i => HF n b s i
  | Cli.Dir n cs =>
      HD n cs
        ((fix all (l : list Cli.Path) : Forall P l :=
            match l with
            | [] => @List.Forall_nil _ P
            | c :: l' => @List.Forall_cons _ P c l' (Path_tree_ind P HF HD c) (all l')
            end) cs)
  end.

(** A directory that has no children. *)
Definition empty_dir (p : Cli.Path) : Prop :=
  Cli.is_dir p = true /\ Cli.children p = [].

(** [--empty] alone, with the given [--level]. *)
Definition empty_only (lvl : option Z) : Cli.Options :=
  {| Cli.arg_limit := 2; Cli.arg_level := lvl; Cli.only_no_file_id := false;
     Cli.empty := true; Cli.only_meta := false; Cli.exists_flag := false;
     Cli.ttl := false; Cli.json := false; Cli.datasets := false;
     Cli.debug := false; Cli.project_id_arg := None |}.

(** The candidates of [find] as the code keeps them: the cached size
    is unknown, or it is within the limit and the local copy is absent
    or differs in size from the cached one. *)
Definition retained (lim : Z) (p : Cli.Match) : bool :=
  match Cli.cached_size p with
  | None => true
  | Some size =>
      FileSizeM.mb_lt size lim &&
      match Cli.local_size p with
      | None => true
      | Some actual => negb (actual =? size)
      end
  end.

(** The candidates of [find] in the words of the specification: the
    cached size is unknown, or it is within the limit and the local
    copy is absent or agrees in size with the cached one. *)
Definition retained_as_specified (lim : Z) (p : Cli.Match) : bool :=
  match Cli.cached_size p with
  | None => true
  | Some size =>
      FileSizeM.mb_lt size lim &&
      match Cli.local_size p with
      | None => true
      | Some actual => actual =? size
      end
  end.

(** A match for which the code reports a truncated transfer. *)
Definition truncated (p : Cli.Match) : bool :=
  match Cli.cached_size p, Cli.local_size p with
  | Some size, Some actual => negb (actual =? size)
  | _, _ => false
  end.

(** Row order of [report size] as the code sorts: rows with all sizes
    known before uncertain ones, larger totals first among equals. *)
Definition row_le (a b : Cli.Row) : Prop :=
  (Cli.r_uncertain a = false /\ Cli.r_uncertain b = true) \/
  (Cli.r_uncertain a = Cli.r_uncertain b /\ Cli.r_total b <= Cli.r_total a).

(** The order that [sorted] establishes: no later key is strictly
    smaller than an earlier one. *)
Definition key_le (a b : bool * Z) : Prop := Cli.key_lt b a = false.

Definition by_key {A} (key : A -> bool * Z) (x y : A) : Prop :=
  key_le (key x) (key y).

(** Row order in the words of the specification: fetched-file count
    ascending, then total bytes descending. *)
Definition row_le_as_specified (a b : Cli.Row) : Prop :=
  Cli.r_lf a < Cli.r_lf b \/
  (Cli.r_lf a = Cli.r_lf b /\ Cli.r_total b <= Cli.r_total a).

(** [LATEST] is relinked only after the content is written: no write
    follows the creation of the link. *)
Definition relinked_after_writes (latest dump : Proc.loc) (tr : list Proc.event) : Prop :=
  forall pre post,
    tr = pre ++ Proc.EvSymlink latest dump :: post ->
    forall p c, ~ In (Proc.EvWrite p c) post.

(** Events that neither create nor remove a link. *)
Definition content_event (ev : Proc.event) : Prop :=
  match ev with
  | Proc.EvUnlink _ | Proc.EvSymlink _ _ => False
  | _ => True
  end.

(** The snapshot directory that [export] works in. *)
Definition single_dataset_mode (o : Cli.Options) (e : Main.ExportEnv) : bool :=
  negb (bool_decide (Main.cwd e = Main.cwd_cache_anchor e)) && (Cli.ttl o || Cli.json o).

Definition snapshot_dir (o : Cli.Options) (e : Main.ExportEnv) : Proc.loc :=
  if single_dataset_mode o e
  then Proc.child (Proc.child (Proc.child (Main.export_base e) "datasets")
                     (Main.ft_id e)) (Main.timestamp e)
  else Proc.child (Main.export_base e) (Main.timestamp e).

(** Everything a command emits satisfies [P]. *)
Definition emits_only {A} (P : Proc.event -> Prop) (m : Proc.M A) : Prop :=
  forall w out w',
    m w = (out, w') ->
    exists evs, Proc.trace w' = Proc.trace w ++ evs /\ Forall P evs.

(** Sample inputs. *)
Definition limit_only (lim : Z) : Cli.Options :=
  {| Cli.arg_limit := lim; Cli.arg_level := None; Cli.only_no_file_id := false;
     Cli.empty := false; Cli.only_meta := false; Cli.exists_flag := false;
     Cli.ttl := false; Cli.json := false; Cli.datasets := false;
     Cli.debug := false; Cli.project_id_arg := None |}.

Definition complete_copy : Cli.Match :=
  {| Cli.m_name := "done.dat"; Cli.cached_size := Some 10; Cli.local_size := Some 10 |}.

Definition truncated_copy : Cli.Match :=
  {| Cli.m_name := "part.dat"; Cli.cached_size := Some 10; Cli.local_size := Some 4 |}.

Definition absent_copy : Cli.Match :=
  {| Cli.m_name := "todo.dat"; Cli.cached_size := Some 10; Cli.local_size := None |}.

Definition two_files : Cli.Path :=
  Cli.Dir "two" [Cli.File "a" false (Some 100) (Some "ia");
                 Cli.File "b" false (Some 100) (Some "ib")].

Definition one_file : Cli.Path :=
  Cli.Dir "one" [Cli.File "c" false (Some 50) (Some "ic")].

Definition scenario_dir : Cli.Path :=
  Cli.Dir "ds" [Cli.File "a" false (Some 100) (Some "ia");
                Cli.File "b" false (Some 200) (Some "ib");
                Cli.File "c" true (Some 50) None].

(** A command that never ends in [sys.exit]. *)
Definition never_exits {A} (m : Proc.M A) : Prop :=
  forall w code, fst (m w) <> Proc.Exit code.

Definition curation : Proc.loc := ["home"; "curation"].
Definition sparc : Proc.loc := ["home"; "curation"; "SPARC"].

(** A project with one dataset folder that has a subfolder. *)
Definition project_world : Proc.world :=
  {| Proc.fs := list_to_map
       [(["home"], Proc.FDir);
        (curation, Proc.FDir);
        (sparc, Proc.FDir);
        (sparc ++ ["heart"], Proc.FDir);
        (sparc ++ ["heart"; "primary"], Proc.FDir);
        (sparc ++ ["heart"; "primary"; "notes.txt"], Proc.FFile "notes")];
     Proc.trace := [] |}.

(** [export] as run from [where_], with [attr] for
    [cwd.cache.is_dataset]. *)
Definition export_env (where_ : Proc.loc) (attr : Proc.pyattr) : Main.ExportEnv :=
  {| Main.cwd := where_;
     Main.cwd_cache_anchor := sparc;
     Main.cwd_cache_is_dataset := attr;
     Main.project_path := sparc;
     Main.project_id := "N:organization:1";
     Main.timestamp := "2019-06-01T12:00:00,000001";
     Main.ft_id := "N:dataset:1";
     Main.ft_data := "{}";
     Main.ft_ttl := "@prefix";
     Main.summary_xml := [("datasets", "<datasets/>")];
     Main.summary_data := "{}";
     Main.summary_ttl := "@prefix";
     Main.summary_disco := [("datasets", "id")];
     Main.summary_iter := [("N:dataset:1", "@prefix")] |}.

Definition format_flags (with_ttl with_json : bool) : Cli.Options :=
  {| Cli.arg_limit := 2; Cli.arg_level := None; Cli.only_no_file_id := false;
     Cli.empty := false; Cli.only_meta := false; Cli.exists_flag := false;
     Cli.ttl := with_ttl; Cli.json := with_json; Cli.datasets := false;
     Cli.debug := false; Cli.project_id_arg := None |}.

Definition clone_options : Cli.Options :=
  {| Cli.arg_limit := 2; Cli.arg_level := None; Cli.only_no_file_id := false;
     Cli.empty := false; Cli.only_meta := false; Cli.exists_flag := false;
     Cli.ttl := false; Cli.json := false; Cli.datasets := false;
     Cli.debug := false; Cli.project_id_arg := Some "N:organization:1" |}.

(** [clone] as run from [curation], outside any project, where the
    folder [SPARC] already exists and is not empty. *)
Definition clone_env : Main.CloneEnv :=
  {| Main.clone_cwd := curation;
     Main.remote_project_name := Ok "SPARC";
     Main.find_cache_root := None;
     Main.pull := fun _ => Proc.ret tt |}.

End Props.

(** ** Further notions used to state properties of [sparcur/core.py] *)

Module CoreNotions.
Import Core.



(** Whitespace other than the space character. *)
Definition odd_space (c : char) : bool := isspace c && negb (c =? c_space)%N.

(** The character that stands for a check value between 0 and 10. *)
Definition check_char (v : Z) : char :=
  if v =? 10 then c_X else Z.to_N (48 + v).

(** A digit or [X]. *)
Definition is_check_char (c : char) : Prop := isdigit c = true \/ c = c_X.

End CoreNotions.

(** ** Further notions used to state properties of [sparcur/cli.py] *)

Module CliNotions.
Import Cli.

(** A path and everything below it, parents first. *)
Definition walk (p : Path) : list Path := p :: rchildren p.

(** A path and what lies at most [d] levels below it, parents first. *)
Fixpoint walk_to (d : nat) (p : Path) {struct d} : list Path :=
  match d with
  | O => [p]
  | S d' => p :: flat_map (walk_to d') (children p)
  end.

(** The number of levels below a given path that [--level=stop]
    reaches: the levels [0 .. stop] each descend once. *)
Definition reach (stop : Z) : nat := Z.to_nat (stop + 1).

(** The number of levels of a tree below its root. *)
Fixpoint height (p : Path) : nat :=
  match p with
  | File _ _ _ _ => O
  | Dir _ cs => fold_right (fun c h => Nat.max (S (height c)) h) O cs
  end.

Definition is_empty_dir (p : Path) : bool :=
  match p with
  | Dir _ [] => true
  | _ => false
  end.

(** The test that the flags put on each visited path. *)
Definition selects (o : Options) (p : Path) : bool :=
  if only_no_file_id o then no_file_id p
  else if empty o then is_empty_dir p
  else true.

(** A file, regular or a broken link, with a known cached size. *)
Definition sized (p : Path) : bool :=
  negb (is_dir p) && bool_decide (is_Some (meta_size p)).

(** A file, regular or a broken link, without a cached size. *)
Definition unsized (p : Path) : bool :=
  negb (is_dir p) && bool_decide (meta_size p = None).

Definition size_of (p : Path) : Z := default 0 (meta_size p).

Definition sum_sizes (l : list Path) : Z :=
  fold_right (fun p acc => size_of p + acc) 0 l.

Definition number_of (f : Path -> bool) (l : list Path) : Z :=
  Z.of_nat (length (List.filter f l)).

(** Equality of sort keys. *)
Definition key_eqb (a b : bool * Z) : bool :=
  Bool.eqb (fst a) (fst b) && (snd a =? snd b).

(** Sample options. *)
Definition only_missing_id (lvl : option Z) : Options :=
  {| arg_limit := 2; arg_level := lvl; only_no_file_id := true;
     empty := false; only_meta := false; exists_flag := false;
     ttl := false; json := false; datasets := false;
     debug := false; project_id_arg := None |}.

Definition limit_level (lvl : Z) : Options :=
  {| arg_limit := 2; arg_level := Some lvl; only_no_file_id := false;
     empty := false; only_meta := false; exists_flag := false;
     ttl := false; json := false; datasets := false;
     debug := false; project_id_arg := None |}.

End CliNotions.

(** ** Further notions used to state properties of the commands *)

Module ProcNotions.
Import Proc.

(** A command that leaves alone what is stored at [p], when something
    is stored there. *)
Definition keeps {A} (p : loc) (m : M A) : Prop :=
  forall w out w',
    is_Some (fs w !! p) -> m w = (out, w') -> fs w' !! p = fs w !! p.

(** [clone] with another [pull]. *)
Definition with_pull (e : Main.CloneEnv) (p : loc -> M unit) : Main.CloneEnv :=
  {| Main.clone_cwd := Main.clone_cwd e;
     Main.remote_project_name := Main.remote_project_name e;
     Main.find_cache_root := Main.find_cache_root e;
     Main.pull := p |}.

(** The destination of [clone] exists and has children. *)
Definition occupied (w : world) (anchor : loc) : Prop :=
  fst (path_exists anchor w) = Val true /\
  exists c cs, fst (list_children anchor w) = Val (c :: cs).

(** The project of the samples after a first project-wide export at an
    earlier time. *)
Definition exported_world : world :=
  snd (Main.export (Props.format_flags false false)
         {| Main.cwd := Props.sparc;
            Main.cwd_cache_anchor := Props.sparc;
            Main.cwd_cache_is_dataset := Method false;
            Main.project_path := Props.sparc;
            Main.project_id := "N:organization:1";
            Main.timestamp := "2019-05-31T09:30:00,000001";
            Main.ft_id := "N:dataset:1";
            Main.ft_data := "{}";
            Main.ft_ttl := "@prefix";
            Main.summary_xml := [("datasets", "<datasets/>")];
            Main.summary_data := "{}";
            Main.summary_ttl := "@prefix";
            Main.summary_disco := [("datasets", "id")];
            Main.summary_iter := [("N:dataset:1", "@prefix")] |}
         Props.project_world).



End ProcNotions.

(** ** Further notions used to state what [export] leaves alone *)

Module CommandNotions.
Import Proc.

(** A command that does not change what is stored at [p], whether or
    not something is stored there. *)
Definition untouched {A} (p : loc) (m : M A) : Prop :=
  forall w out w', m w = (out, w') -> fs w' !! p = fs w !! p.

(** Events that change no link and do not make the directory [dump]. *)
Definition quiet (dump : loc) (ev : event) : Prop :=
  Props.content_event ev /\ ev <> EvMkdir dump.

End CommandNotions.

(** ** setup.py *)

Module Setup.

Definition c_quote : char := 39%N.
Definition c_newline : char := 10%N.

(** The pattern of [_version_re] up to its group. *)
Definition version_prefix : str := lit "__version__ = '".

(** [s] without the leading [p], when [s] starts with [p]. *)
Fixpoint strip_prefix (p s : str) : option str :=
  match p, s with
  | [], _ => Some s
  | a :: p', b :: s' => if (a =? b)%N then strip_prefix p' s' else None
  | _ :: _, [] => None
  end.

(** What the starred dot of the group takes at most: a dot matches
    every character but a newline. *)
Fixpoint dot_run (s : str) : str :=
  match s with
  | [] => []
  | c :: s' => if (c =? c_newline)%N then [] else c :: dot_run s'
  end.

(** The greedy group and the quote after it, on such a run: the group
    gives back characters until a quote follows it, so it ends before
    the last quote. *)
Fixpoint group_before_last_quote (r : str) : option str :=
  match r with
  | [] => None
  | c :: r' =>
      match group_before_last_quote r' with
      | Some g => Some (c :: g)
      | None => if (c =? c_quote)%N then Some [] else None
      end
  end.

(** [_version_re.match(line)], anchored at the start of the line, and
    [group(1)] of the match. *)
Definition version_match (line : str) : option str :=
  match strip_prefix version_prefix line with
  | Some rest => group_before_last_quote (dot_run rest)
  | None => None
  end.

(** [find_version], lines 7-12.  [lines] is what iterating over the
    open file yields; falling off the loop returns [None]. *)
Fixpoint find_version (lines : list str) : option str :=
  match lines with
  | [] => None
  | line :: rest =>
      match version_match line with
      | Some v => Some v
      | None => find_version rest
      end
  end.

End Setup.

(** Sample lines of a module file. *)

Module SetupSamples.
Import Setup.

Definition docstring_line : str := lit "# sparcur" ++ [c_newline].
Definition version_line : str := lit "__version__ = '0.0.1'" ++ [c_newline].
Definition commented_line : str :=
  lit "__version__ = '0.0.1'  # don't forget the tag" ++ [c_newline].

End SetupSamples.

(** ** sparcur/core.py: [FileSize.mb] as the float it is *)

Module FileSizeMb.
Import FileSizeM.

(** [FileSize.mb], lines 233-235: [self / 1024 ** 2].  The true
    division of two ints gives the binary64 value nearest to the exact
    quotient, ties to even, and raises [OverflowError] when that value
    is out of range.  The divisor is [2^20], so the significand is that
    of [self] rounded to 53 bits. *)
Definition mb (self : Z) : res num :=
  let a := Z.abs self in
  let b := if a =? 0 then 0 else Z.log2 a + 1 in
  let r :=
    if b <=? 53 then a
    else
      let sh := b - 53 in
      let q := a / 2 ^ sh in
      let rest := a mod 2 ^ sh in
      let half := 2 ^ (sh - 1) in
      let q' := if (half <? rest) || ((rest =? half) && Z.odd q)
                then q + 1 else q in
      q' * 2 ^ sh in
  if 2 ^ 1044 <=? r then Raise OverflowError else Ok (PyFloat (Z.sgn self * r) 20).

(** [x < limit] for an [int] limit: Python compares a float and an int
    by their exact values. *)
Definition lt_int (x : num) (limit : Z) : bool :=
  match x with
  | PyInt n => n <? limit
  | PyFloat m e => m <? limit * 2 ^ e
  end.

(** [self.mb < limit] as [find] evaluates it, line 684. *)
Definition mb_below (self limit : Z) : res bool :=
  bind (mb self) (fun x => Ok (lt_int x limit)).

End FileSizeMb.

(** ** sparcur/cli.py: the counting reports *)

Module Counts.
Import Cli.

(** [Counter(values).items()]: every distinct value with the number of
    its occurrences, in the order in which the values first occur. *)
Fixpoint counter_add {K} `{EqDecision K} (k : K) (c : list (K * Z)) : list (K * Z) :=
  match c with
  | [] => [(k, 1)]
  | (k', n) :: c' =>
      if bool_decide (k' = k) then (k', n + 1) :: c'
      else (k', n) :: counter_add k c'
  end.

Definition Counter {K} `{EqDecision K} (values : list K) : list (K * Z) :=
  fold_left (fun c k => counter_add k c) values [].

(** The order of Python tuples [(str, int)]: the first components
    decide unless they are equal. *)
Definition pair_lt (a b : string * Z) : bool :=
  if String.eqb (fst a) (fst b) then snd a <? snd b
  else String.ltb (fst a) (fst b).

(** [Report._sort_key], lines 792-797, as the order it induces on the
    rows [(name, count)]: [-kv[-1]] with [--sort-count-desc], the row
    itself otherwise. *)
Definition _sort_key_lt (sort_count_desc : bool) (a b : string * Z) : bool :=
  if sort_count_desc then - snd a <? - snd b else pair_lt a b.

(** [sorted(rows, key=key)]: stable, and only [<] on keys is used. *)
Fixpoint insert_by {A} (lt : A -> A -> bool) (x : A) (l : list A) : list A :=
  match l with
  | [] => [x]
  | y :: l' => if lt y x then y :: insert_by lt x l' else x :: l
  end.

Definition sorted_by {A} (lt : A -> A -> bool) (l : list A) : list A :=
  fold_right (insert_by lt) [] l.

(** [k if k else ''] *)
Definition label (k : option string) : string :=
  match k with
  | Some s => s
  | None => ""
  end.

(** Line 861: [[c for p in paths for c in p.rchildren if not c.is_dir()]] *)
Definition files_below (paths : list Path) : list Path :=
  List.filter (fun c => negb (is_dir c)) (flat_map rchildren paths).

(** [count(thing)] of [Report.filetypes], lines 863-866; [attr] is
    [getattr(f, thing)]. *)
Definition count (sort_count_desc : bool) (attr : Path -> option string)
    (paths : list Path) : list (string * Z) :=
  sorted_by (_sort_key_lt sort_count_desc)
    (List.map (fun '(k, v) => (label k, v)) (Counter (List.map attr paths))).

End Counts.

(** Notions used to state properties of the counting reports. *)

Module CountsNotions.
Import Cli Counts.

Definition sum_counts {K} (rows : list (K * Z)) : Z :=
  fold_right Z.add 0 (List.map snd rows).

(** Counts that do not increase from a row to the next ones. *)
Definition descending (rows : list (string * Z)) : Prop :=
  StronglySorted (fun a b => snd b <= snd a) rows.

End CountsNotions.

(** ** sparcur/cli.py: [Main.find] from the matches to the report *)

Module FindM.
Import Cli Proc.
Local Open Scope proc_scope.















End FindM.

(** Notions used to state properties of [find]. *)

Module FindNotions.
Import Cli Proc FindM.








End FindNotions.

(** * Facts about [sparcur/core.py] *)

Section PythonIdentifier.
Import Core Props.

Lemma normalize_chain s : normalize s = chain (strip s).
Proof. reflexivity. Qed.

Lemma replace_app old new a b :
  replace old new (a ++ b) = replace old new a ++ replace old new b.
Proof.
  induction a as [|c a IH]; simpl; [reflexivity|].
  rewrite IH. destruct (c =? old)%N; simpl; [|reflexivity].
  now rewrite <- app_assoc.
Qed.

Lemma lower_app a b : lower (a ++ b) = lower a ++ lower b.
Proof. apply List.map_app. Qed.

Lemma chain_app a b : chain (a ++ b) = chain a ++ chain b.
Proof. unfold chain. now rewrite !replace_app, lower_app. Qed.

Lemma chain_cons c s : chain (c :: s) = chain [c] ++ chain s.
Proof. apply (chain_app [c] s). Qed.

Lemma chain_nil : chain [] = [].
Proof. reflexivity. Qed.

Ltac split_on c k :=
  destruct (N.eqb_spec c k) as [->|?].

(** What the chain does to one character. *)
Lemma chain_single c :
  chain [c] =
    if is_deleted c then []
    else if ((c =? c_space) || (c =? c_dot) || (c =? c_comma) || (c =? c_slash)
             || (c =? c_question) || (c =? c_hyphen) || (c =? c_colon))%N
         then [c_underscore]
    else if (c =? c_hash)%N then lit "number"
    else [lower_char c].
Proof.
  unfold is_deleted.
  split_on c c_lparen; [reflexivity|].
  split_on c c_rparen; [reflexivity|].
  split_on c c_plus; [reflexivity|].
  split_on c c_ellipsis; [reflexivity|].
  split_on c c_x83; [reflexivity|].
  split_on c c_space; [reflexivity|].
  split_on c c_dot; [reflexivity|].
  split_on c c_comma; [reflexivity|].
  split_on c c_slash; [reflexivity|].
  split_on c c_question; [reflexivity|].
  split_on c c_hyphen; [reflexivity|].
  split_on c c_colon; [reflexivity|].
  split_on c c_hash; [reflexivity|].
  unfold chain; simpl.
  repeat match goal with
         | H : c <> ?k |- context [(c =? ?k)%N] =>
             rewrite (proj2 (N.eqb_neq c k) H); simpl
         end.
  reflexivity.
Qed.

Lemma lower_char_idem c : lower_char (lower_char c) = lower_char c.
Proof.
  unfold lower_char.
  destruct ((65 <=? c)%N && (c <=? 90)%N) eqn:E; [|now rewrite E].
  apply andb_true_iff in E as [E1 E2].
  apply N.leb_le in E1, E2.
  replace ((c + 32 <=? 90)%N) with false by (symmetry; apply N.leb_gt; lia).
  now rewrite andb_false_r.
Qed.






Lemma chain_empty_iff s :
  chain s = [] <-> Forall (fun c => is_deleted c = true) s.
Proof.
  induction s as [|c s IH]; [split; [constructor|reflexivity]|].
  rewrite chain_cons. split.
  - intros H. apply app_eq_nil in H as [H1 H2].
    constructor; [|now apply IH].
    rewrite chain_single in H1. destruct (is_deleted c); [reflexivity|].
    repeat match type of H1 with
           | (if ?b then _ else _) = _ => destruct b
           end; discriminate.
  - intros H. inversion H as [|? ? Hc Hs]; subst.
    rewrite chain_single, Hc. simpl. now apply IH.
Qed.

(** [strip] keeps a contiguous part of its argument. *)
Lemma lstrip_suffix s : exists w, s = w ++ lstrip s.
Proof.
  induction s as [|c s [w IH]]; [now exists []|].
  simpl. destruct (isspace c).
  - exists (c :: w). simpl. now f_equal.
  - now exists [].
Qed.

Lemma rstrip_prefix s : exists w, s = rstrip s ++ w.
Proof.
  unfold rstrip. destruct (lstrip_suffix (rev s)) as [w Hw].
  exists (rev w). rewrite <- rev_app_distr, <- Hw. now rewrite rev_involutive.
Qed.

Lemma strip_infix s : exists a b, s = a ++ strip s ++ b.
Proof.
  unfold strip. destruct (lstrip_suffix s) as [a Ha].
  destruct (rstrip_prefix (lstrip s)) as [b Hb].
  exists a, b. now rewrite <- Hb.
Qed.

Lemma Forall_strip (P : char -> Prop) s : Forall P s -> Forall P (strip s).
Proof.
  intros H. destruct (strip_infix s) as (a & b & E).
  rewrite E in H. apply Forall_app in H as [_ H].
  now apply Forall_app in H as [H _].
Qed.

Lemma lstrip_all_space s :
  Forall (fun c => isspace c = true) s -> lstrip s = [].
Proof.
  induction 1 as [|c s Hc _ IH]; [reflexivity|]. simpl. now rewrite Hc.
Qed.

Lemma strip_all_space s :
  Forall (fun c => isspace c = true) s -> strip s = [].
Proof.
  intros H. unfold strip. now rewrite (lstrip_all_space s H).
Qed.







(** C10: [python_identifier] raises [IndexError] exactly when the
    normalized form is empty, which is exactly when the stripped input
    consists of deleted characters only; in particular on the empty
    and the whitespace-only strings and on strings made of deleted
    characters.  On every other input it returns a token. *)
Theorem python_identifier_raises_on_empty_form (s : str) :
  (python_identifier s = Raise IndexError <-> normalize s = []) /\
  (normalize s = [] <-> Forall (fun c => is_deleted c = true) (strip s)) /\
  (Forall (fun c => isspace c = true) s -> python_identifier s = Raise IndexError) /\
  (Forall (fun c => is_deleted c = true) s -> python_identifier s = Raise IndexError) /\
  (normalize s <> [] -> exists r, python_identifier s = Ok r).
Proof.
  assert (Hiff : python_identifier s = Raise IndexError <-> normalize s = []).
  { unfold python_identifier. destruct (normalize s) as [|c ident].
    - split; reflexivity.
    - destruct (isdigit c); split; discriminate. }
  assert (Hdel : normalize s = [] <-> Forall (fun c => is_deleted c = true) (strip s)).
  { rewrite normalize_chain. apply chain_empty_iff. }
  split; [exact Hiff|]. split; [exact Hdel|]. split; [|split].
  - intros H. apply Hiff, Hdel. rewrite (strip_all_space s H). constructor.
  - intros H. apply Hiff, Hdel. now apply Forall_strip.
  - intros H. unfold python_identifier.
    destruct (normalize s) as [|c ident]; [contradiction|].
    destruct (isdigit c); eauto.
Qed.

(** C10, witness: a whitespace-only string and a string of deleted
    characters. *)
Lemma python_identifier_raises_witness :
  python_identifier [32; 9; 10]%N = Raise IndexError /\
  python_identifier (lit "(+)") = Raise IndexError.
Proof.
  split.
  - apply (proj1 (proj2 (proj2 (python_identifier_raises_on_empty_form [32; 9; 10]%N)))).
    repeat constructor.
  - apply (proj1 (proj2 (proj2 (proj2 (python_identifier_raises_on_empty_form (lit "(+)")))))).
    repeat constructor.
Defined.

End PythonIdentifier.

Section Orcid.
Import Core Props.

Lemma unpack_last_snoc ds c : unpack_last (ds ++ [c]) = Ok (ds, c).
Proof.
  induction ds as [|d ds IH]; [reflexivity|].
  change ((d :: ds) ++ [c]) with (d :: (ds ++ [c])).
  simpl. rewrite IH. destruct (ds ++ [c]) eqn:E; [|reflexivity].
  now apply app_eq_nil in E as [_ E].
Qed.

Lemma unpack_last_nonempty (s : str) :
  s <> [] -> exists ds c, s = ds ++ [c].
Proof.
  intros H. destruct (exists_last H) as (ds & c & ->). eauto.
Qed.

Lemma int_of_digit decimal c :
  is_digit decimal c = true -> int_of_char decimal c = Ok (digit_value decimal c).
Proof.
  unfold is_digit, int_of_char, digit_value.
  destruct (decimal c); [reflexivity|discriminate].
Qed.

Lemma int_of_nondigit decimal c :
  is_digit decimal c = false -> int_of_char decimal c = Raise ValueError.
Proof.
  unfold is_digit, int_of_char. destruct (decimal c); [discriminate|reflexivity].
Qed.

Lemma total_loop_digits decimal ds : forall total,
  all_digits decimal ds ->
  total_loop decimal total ds =
    Ok (fold_left (fun t c => (t + digit_value decimal c) * 2) ds total).
Proof.
  induction ds as [|d ds IH]; intros total H; [reflexivity|].
  inversion H as [|? ? Hd Hds]; subst. simpl.
  rewrite (int_of_digit decimal d Hd). simpl. now apply IH.
Qed.

Lemma total_loop_nondigits decimal ds : forall total,
  ~ all_digits decimal ds -> total_loop decimal total ds = Raise ValueError.
Proof.
  induction ds as [|d ds IH]; intros total H.
  - exfalso. apply H. constructor.
  - simpl. destruct (is_digit decimal d) eqn:Hd.
    + rewrite (int_of_digit decimal d Hd). simpl. apply IH.
      intros Hds. apply H. now constructor.
    + now rewrite (int_of_nondigit decimal d Hd).
Qed.

Lemma all_digits_dec decimal ds : all_digits decimal ds \/ ~ all_digits decimal ds.
Proof.
  induction ds as [|d ds [IH|IH]].
  - left. constructor.
  - destruct (is_digit decimal d) eqn:Hd.
    + left. now constructor.
    + right. intros H. inversion H; congruence.
  - right. intros H. inversion H; contradiction.
Qed.

(** The value of [checksumValid] on a suffix that parses. *)
Lemma checksumValid_parsed decimal (suffix ds : str) (c : char) :
  replace c_hyphen [] suffix = ds ++ [c] ->
  all_digits decimal ds ->
  is_digit decimal c = true \/ c = c_X ->
  checksumValid decimal suffix =
    Ok ((12 - spec_total decimal ds mod 11) mod 11 =? check_value decimal c).
Proof.
  unfold checksumValid, checksum_body.
  intros E Hds Hc. rewrite E, unpack_last_snoc. simpl.
  assert (Hcheck : (if (c =? c_X)%N then Ok 10 else int_of_char decimal c)
                   = Ok (check_value decimal c)).
  { unfold check_value. destruct (N.eqb_spec c c_X) as [->|Hne]; [reflexivity|].
    destruct Hc as [Hc|Hc]; [now apply int_of_digit|contradiction]. }
  rewrite Hcheck. simpl. rewrite (total_loop_digits decimal ds 0 Hds). reflexivity.
Qed.

(** On a suffix that does not parse, [checksumValid] raises. *)
Lemma checksumValid_unparsed decimal (suffix : str) :
  ~ parses decimal (replace c_hyphen [] suffix) ->
  checksumValid decimal suffix = Raise MalformedOrcidError.
Proof.
  unfold checksumValid, checksum_body.
  intros Hnp. destruct (replace c_hyphen [] suffix) as [|c0 s0] eqn:E.
  - reflexivity.
  - destruct (unpack_last_nonempty (c0 :: s0)) as (ds & c & E'); [discriminate|].
    rewrite E' in *. rewrite unpack_last_snoc. simpl.
    destruct (N.eqb_spec c c_X) as [->|Hne].
    + simpl. destruct (all_digits_dec decimal ds) as [Hds|Hds].
      * exfalso. apply Hnp. exists ds, c_X. auto.
      * now rewrite (total_loop_nondigits decimal ds 0 Hds).
    + destruct (is_digit decimal c) eqn:Hc.
      * rewrite (int_of_digit decimal c Hc). simpl.
        destruct (all_digits_dec decimal ds) as [Hds|Hds].
        -- exfalso. apply Hnp. exists ds, c. auto.
        -- now rewrite (total_loop_nondigits decimal ds 0 Hds).
      * now rewrite (int_of_nondigit decimal c Hc).
Qed.



End Orcid.

Section FileSizeFacts.
Import FileSizeM.

(** C7: [FileSize(0).hr], [FileSize(1024).hr] and [FileSize(1536).hr]
    are ["0"], ["1K"] and ["2K"], and [hr] of a negative size is
    ["??"]. *)
Theorem hr_values :
  hr 0 = Ok (lit "0") /\
  hr 1024 = Ok (lit "1K") /\
  hr 1536 = Ok (lit "2K") /\
  (forall n : Z, n < 0 -> hr n = Ok (lit "??")).
Proof.
  repeat split; try reflexivity.
  intros n Hn. unfold hr.
  replace (0 <=? n) with false by (symmetry; apply Z.leb_gt; exact Hn).
  reflexivity.
Qed.

(** C7, witness: a size of [-1]. *)
Lemma hr_values_witness : -1 < 0 /\ hr (-1) = Ok (lit "??").
Proof.
  split; [lia|].
  apply (proj2 (proj2 (proj2 hr_values)) (-1)). lia.
Defined.

(** Further values of [hr]: ties go to the even neighbour, and sizes
    beyond the last unit are printed with one decimal. *)
Example hr_more :
  hr (5 * 2 ^ 20 + 2 ^ 19) = Ok (lit "6M") /\
  hr (4 * 2 ^ 20 + 2 ^ 19) = Ok (lit "4M") /\
  hr 1023 = Ok (lit "1023") /\
  hr (2 ^ 90) = Ok (lit "1024.0Yi").
Proof. repeat split; vm_compute; reflexivity. Qed.

End FileSizeFacts.

(** * Facts about [sparcur/cli.py] *)

Section BuildPaths.
Import Cli Props.

Lemma Forall_flat_map {A B} (P : B -> Prop) (f : A -> list B) (l : list A) :
  Forall (fun x => Forall P (f x)) l -> Forall P (flat_map f l).
Proof.
  induction 1 as [|x l Hx _ IH]; simpl; [constructor|].
  apply Forall_app. now split.
Qed.

(** With a depth limit, [--empty] yields empty directories only. *)
Lemma inner_path_empty_bounded (o : Options) (stop : Z) :
  empty o = true -> only_no_file_id o = false -> level o = Some stop ->
  forall p lvl, Forall empty_dir (inner_path o lvl p).
Proof.
  intros He Hn Hl p.
  induction p as [n b s i|n cs IH] using Path_tree_ind; intros lvl.
  - simpl. rewrite Hn, He. constructor.
  - simpl. rewrite Hn, He, Hl.
    assert (Hd : Forall empty_dir
                   (if lvl <=? stop then flat_map (inner_path o (lvl + 1)) cs else [])).
    { destruct (lvl <=? stop); [|constructor].
      apply Forall_flat_map.
      eapply Forall_impl; [exact IH|]. intros c Hc. apply Hc. }
    destruct cs as [|c cs']; [|exact Hd].
    constructor; [|exact Hd]. split; reflexivity.
Qed.

Lemma build_paths_empty_bounded (o : Options) (stop : Z) (paths : list Path) :
  empty o = true -> only_no_file_id o = false -> level o = Some stop ->
  Forall empty_dir (_build_paths o paths).
Proof.
  intros He Hn Hl. unfold _build_paths, inner.
  apply Forall_flat_map, Forall_forall. intros p _.
  now apply (inner_path_empty_bounded o stop).
Qed.

(** A nested empty directory within the depth limit is found. *)
Example build_paths_empty_nested :
  _build_paths (empty_only (Some 0))
    [Dir "a" []; Dir "b" [File "f" false (Some 1) (Some "id"); Dir "c" []]]
  = [Dir "a" []; Dir "c" []].
Proof. reflexivity. Qed.

(** C3: with [--empty] and no [--level], the regular file [f] inside
    the non-empty directory [b] is yielded, through the unfiltered
    [yield from path.rchildren] of line 311. *)
Theorem build_paths_empty_unbounded_yields_file :
  _build_paths (empty_only None)
    [Dir "a" []; Dir "b" [File "f" false (Some 1) (Some "id"); Dir "c" []]]
  = [Dir "a" []; File "f" false (Some 1) (Some "id"); Dir "c" []] /\
  ~ Forall empty_dir
      (_build_paths (empty_only None)
         [Dir "a" []; Dir "b" [File "f" false (Some 1) (Some "id"); Dir "c" []]]).
Proof.
  split; [reflexivity|].
  intros H. change (_build_paths _ _)
    with [Dir "a" []; File "f" false (Some 1) (Some "id"); Dir "c" []] in H.
  inversion H as [|? ? _ H']; subst.
  inversion H' as [|? ? [Hdir _] _]; subst.
  discriminate.
Qed.

End BuildPaths.

Section Find.
Import Cli Props.

Lemma keep_retained (lim : Z) (p : Match) :
  keep false lim p =
    (retained lim p,
     if truncated p then [LogInfo truncated_msg (m_name p)] else []).
Proof.
  unfold keep, retained, truncated, p_exists.
  destruct (cached_size p) as [size|]; [|now destruct (local_size p)].
  destruct (local_size p) as [actual|]; simpl.
  - destruct (actual =? size), (FileSizeM.mb_lt size lim); reflexivity.
  - destruct (FileSizeM.mb_lt size lim); reflexivity.
Qed.

Lemma limit_filter_retained (lim : Z) (paths : list Match) :
  limit_filter false lim paths =
    (List.filter (retained lim) paths,
     List.map (fun p => LogInfo truncated_msg (m_name p))
       (List.filter truncated paths)).
Proof.
  induction paths as [|p paths IH]; [reflexivity|].
  simpl. rewrite keep_retained, IH.
  destruct (retained lim p), (truncated p); reflexivity.
Qed.

(** Below [2^53] bytes the size in megabytes is an exact float: the
    size itself over [2^20]. *)
Lemma mb_small (size : Z) :
  Z.abs size < 2 ^ 53 ->
  FileSizeMb.mb size = Ok (FileSizeM.PyFloat size 20).
Proof.
  intros H. unfold FileSizeMb.mb.
  assert (Hb : ((if Z.abs size =? 0 then 0 else Z.log2 (Z.abs size) + 1) <=? 53) = true).
  { apply Z.leb_le. destruct (Z.eqb_spec (Z.abs size) 0) as [_|Hn]; [lia|].
    assert (Z.log2 (Z.abs size) < 53) by (apply Z.log2_lt_pow2; lia). lia. }
  rewrite Hb.
  assert (Hlt : (2 ^ 1044 <=? Z.abs size) = false).
  { apply Z.leb_gt. eapply Z.lt_trans; [exact H|].
    apply Z.pow_lt_mono_r; lia. }
  rewrite Hlt. now rewrite Z.mul_comm, Z.abs_sgn.
Qed.

(** C4 (amended): with a size limit configured and [--exists] not set,
    over matches whose known cached sizes are below [2^53] bytes, the
    candidates are exactly the matches whose cached size is unknown,
    plus those whose cached size is within the limit and whose local
    copy is absent or differs in size from the cached size; an
    existing local copy whose size equals the cached size is dropped.
    A "Truncated transfer" record is logged for every match whose
    local copy exists with a size other than the known cached size.
    For these sizes the test [size.mb < limit] of line 684, made on
    floats, raises nothing and is the comparison of integers that
    [retained] makes. *)
Theorem find_paths_retained (o : Options) (lim : Z) (paths : list Match) :
  limit o = Some lim -> lim <> 0 -> exists_flag o = false ->
  Forall (fun p => modest p = true) paths ->
  fst (find_paths o paths) = List.filter (retained lim) paths /\
  snd (find_paths o paths) =
    List.map (fun p => LogInfo truncated_msg (m_name p))
      (List.filter truncated paths) /\
  Forall (fun p => forall size, cached_size p = Some size ->
            FileSizeMb.mb_below size lim = Ok (FileSizeM.mb_lt size lim)) paths.
Proof.
  intros Hl Hz He Hm. unfold find_paths. rewrite Hl, He.
  replace (lim =? 0) with false by (symmetry; now apply Z.eqb_neq).
  rewrite limit_filter_retained. split; [reflexivity|]. split; [reflexivity|].
  eapply Forall_impl; [exact Hm|]. intros p Hp size E.
  unfold modest in Hp. rewrite E in Hp. apply Z.ltb_lt in Hp.
  unfold FileSizeMb.mb_below. now rewrite (mb_small size Hp).
Qed.

End Find.

Section FindExamples.
Import Cli Props.

(** C4, witness: a limit of 2 MB over a complete copy, a truncated
    copy and a file not yet fetched. *)
Lemma find_paths_retained_witness :
  limit (limit_only 2) = Some 2 /\
  Forall (fun p => modest p = true) [complete_copy; truncated_copy; absent_copy] /\
  fst (find_paths (limit_only 2) [complete_copy; truncated_copy; absent_copy])
    = [truncated_copy; absent_copy] /\
  snd (find_paths (limit_only 2) [complete_copy; truncated_copy; absent_copy])
    = [LogInfo truncated_msg "part.dat"].
Proof.
  assert (Hm : Forall (fun p => modest p = true)
                 [complete_copy; truncated_copy; absent_copy])
    by (repeat constructor).
  split; [reflexivity|]. split; [exact Hm|].
  destruct (find_paths_retained (limit_only 2) 2
              [complete_copy; truncated_copy; absent_copy])
    as (H1 & H2 & _); [reflexivity|lia|reflexivity|exact Hm|].
  split; [exact H1|exact H2].
Defined.

(** C4, counterexample: the complete copy that the specification
    keeps is dropped, and the truncated copy that the specification
    drops is kept. *)
Lemma find_paths_not_as_specified :
  fst (find_paths (limit_only 2) [complete_copy; truncated_copy])
    = [truncated_copy] /\
  List.filter (retained_as_specified 2) [complete_copy; truncated_copy]
    = [complete_copy] /\
  fst (find_paths (limit_only 2) [complete_copy; truncated_copy])
    <> List.filter (retained_as_specified 2) [complete_copy; truncated_copy].
Proof. repeat split; try reflexivity. discriminate. Qed.

End FindExamples.

Section ReportSize.
Import Cli Props.

Lemma key_le_trans a b c : key_le a b -> key_le b c -> key_le a c.
Proof.
  unfold key_le, key_lt. destruct a as [[] x], b as [[] y], c as [[] z]; simpl;
    rewrite ?Z.ltb_ge; try discriminate; try reflexivity; lia.
Qed.

Lemma key_lt_le a b : key_lt a b = true -> key_le a b.
Proof.
  unfold key_le, key_lt. destruct a as [[] x], b as [[] y]; simpl;
    rewrite ?Z.ltb_lt, ?Z.ltb_ge; try discriminate; try reflexivity; lia.
Qed.

Lemma key_le_row (a b : Row) : key_le (sort_key a) (sort_key b) <-> row_le a b.
Proof.
  unfold key_le, key_lt, sort_key, row_le. simpl.
  destruct (r_uncertain a), (r_uncertain b); rewrite ?Z.ltb_ge; split; intros H;
    try discriminate;
    try (destruct H as [[? ?]|[? ?]]; try discriminate; try lia; reflexivity);
    try (right; split; [reflexivity|lia]);
    try (left; split; reflexivity).
Qed.

Variable A : Type.
Variable key : A -> bool * Z.

Lemma insert_sorted_perm x l : Permutation (x :: l) (insert_sorted key x l).
Proof.
  induction l as [|y l IH]; simpl; [reflexivity|].
  destruct (key_lt (key y) (key x)); [|reflexivity].
  rewrite perm_swap. now constructor.
Qed.

Lemma insert_sorted_sorted x l :
  StronglySorted (by_key key) l -> StronglySorted (by_key key) (insert_sorted key x l).
Proof.
  induction 1 as [|y l Hs IH Hy]; simpl; [repeat constructor|].
  destruct (key_lt (key y) (key x)) eqn:E.
  - constructor; [exact IH|].
    apply Forall_forall. intros z Hz.
    apply list_elem_of_In in Hz.
    apply (Permutation_in _ (Permutation_sym (insert_sorted_perm x l))) in Hz.
    destruct Hz as [<-|Hz].
    + now apply key_lt_le.
    + rewrite Forall_forall in Hy. apply Hy. now apply list_elem_of_In.
  - constructor; [now constructor|].
    constructor; [exact E|].
    eapply Forall_impl; [exact Hy|].
    intros z Hz. eapply key_le_trans; [exact E|exact Hz].
Qed.

Lemma sorted_perm l : Permutation l (sorted key l).
Proof.
  induction l as [|x l IH]; simpl; [reflexivity|].
  rewrite <- insert_sorted_perm. now constructor.
Qed.

Lemma sorted_sorted l : StronglySorted (by_key key) (sorted key l).
Proof.
  induction l as [|x l IH]; simpl; [constructor|].
  now apply insert_sorted_sorted.
Qed.

End ReportSize.

Section ReportSizeOrder.
Import Cli Props.

Lemma StronglySorted_impl {A} (R S : A -> A -> Prop) (l : list A) :
  (forall x y, R x y -> S x y) -> StronglySorted R l -> StronglySorted S l.
Proof.
  intros HRS. induction 1 as [|x l _ IH Hx]; constructor; [exact IH|].
  eapply Forall_impl; [exact Hx|]. intros y. apply HRS.
Qed.

(** C5 (amended): the rows of [report size], one per given directory,
    are the computed rows ordered by the uncertain flag ascending
    (rows whose sizes are all known first) and, within equal flags, by
    total bytes descending. *)
Theorem size_rows_order (dirs : list Path) :
  size_rows dirs = header :: List.map format_row (size_sorted dirs) /\
  Permutation (size_data dirs) (size_sorted dirs) /\
  StronglySorted row_le (size_sorted dirs).
Proof.
  split; [reflexivity|]. split.
  - apply sorted_perm.
  - apply (StronglySorted_impl (by_key sort_key)).
    + intros x y. apply key_le_row.
    + apply sorted_sorted.
Qed.

(** C5, counterexample: a directory with two fetched files of 100
    bytes each comes before a directory with one fetched file of 50
    bytes, against the ascending fetched-file count. *)
Lemma size_rows_not_by_count :
  List.map r_lf (size_sorted [one_file; two_files]) = [2; 1] /\
  ~ StronglySorted row_le_as_specified (size_sorted [one_file; two_files]).
Proof.
  split; [reflexivity|].
  intros H. inversion H as [|x l _ Hx E]; subst.
  inversion Hx as [|y l' Hy _]; subst.
  unfold row_le_as_specified in Hy. vm_compute in Hy.
  destruct Hy as [Hy|[Hy _]]; discriminate.
Qed.

(** The sizes and counts of a directory with two regular files of 100
    and 200 bytes and one broken link of 50 bytes. *)
Example size_row_scenario :
  size_row scenario_dir =
    {| r_name := "ds"; r_local := 300; r_outstanding := 50; r_total := 350;
       r_uncertain := false; r_lf := 2; r_ff := 1; r_tf := 3; r_td := 0 |}.
Proof. reflexivity. Qed.

End ReportSizeOrder.

Section Clone.
Import Proc Main Props.

(** Whenever the destination exists and has children, [clone] exits
    with status 2 and leaves the world, its output included, as it
    found it. *)
Lemma clone_nonempty_destination (o : Cli.Options) (e : CloneEnv) (w : world)
      (project_id project_name : string) (c : loc) (cs : list loc) :
  Cli.project_id_arg o = Some project_id ->
  remote_project_name e = Ok project_name ->
  find_cache_root e = None ->
  path_exists (child (clone_cwd e) project_name) w = (Val true, w) ->
  list_children (child (clone_cwd e) project_name) w = (Val (c :: cs), w) ->
  clone o e w = (Exit 2, w).
Proof.
  intros Hid Hname Hroot Hex Hch. unfold clone.
  rewrite Hid, Hname, Hroot. unfold bindM. rewrite Hex, Hch. reflexivity.
Qed.

(** C8: [clone] into the existing, non-empty folder [SPARC] exits with
    status 2 and prints nothing: line 355 builds the message and
    line 356 exits without the [print(message)] of lines 349-350. *)
Theorem clone_nonempty_destination_prints_nothing :
  clone clone_options clone_env project_world = (Exit 2, project_world) /\
  trace (snd (clone clone_options clone_env project_world)) = [].
Proof. split; vm_compute; reflexivity. Qed.

End Clone.

Section ExportFacts.
Import Proc Main Props.
Local Open Scope proc_scope.

(** *** Commands that cannot exit *)

Lemma never_exits_ret {A} (a : A) : never_exits (ret a).
Proof. intros w code. discriminate. Qed.

Lemma never_exits_bind {A B} (m : M A) (k : A -> M B) :
  never_exits m -> (forall a, never_exits (k a)) -> never_exits (bindM m k).
Proof.
  intros Hm Hk w code. unfold bindM.
  specialize (Hm w). destruct (m w) as [[a|c|x] w1]; simpl in *.
  - apply Hk.
  - now specialize (Hm c).
  - discriminate.
Qed.

Lemma never_exits_for_each {A} (xs : list A) (body : A -> M unit) :
  (forall x, never_exits (body x)) -> never_exits (for_each xs body).
Proof.
  intros Hb. induction xs as [|x xs IH]; simpl.
  - apply never_exits_ret.
  - apply never_exits_bind; [apply Hb|intros _; exact IH].
Qed.

Lemma never_exits_emit ev : never_exits (emit ev).
Proof. intros w code. discriminate. Qed.

Lemma never_exits_write out content : never_exits (write_file out content).
Proof. intros w code. discriminate. Qed.

Lemma never_exits_raise {A} x : never_exits (@raise A x).
Proof. intros w code. discriminate. Qed.

Lemma never_exits_unlink p : never_exits (unlink p).
Proof. intros w code. discriminate. Qed.

Lemma never_exits_path_exists p : never_exits (path_exists p).
Proof. intros w code. discriminate. Qed.

Lemma never_exits_is_symlink p : never_exits (is_symlink p).
Proof. intros w code. discriminate. Qed.

Lemma never_exits_mkdir_parents p : never_exits (mkdir_parents p).
Proof. intros w code. unfold mkdir_parents. destruct (fs w !! p); discriminate. Qed.

Lemma never_exits_mkdir p : never_exits (mkdir p).
Proof. intros w code. unfold mkdir. destruct (fs w !! p); discriminate. Qed.

Lemma never_exits_symlink_to l t : never_exits (symlink_to l t).
Proof. intros w code. unfold symlink_to. destruct (fs w !! l); discriminate. Qed.

Lemma never_exits_new_snapshot dump latest : never_exits (new_snapshot dump latest).
Proof.
  unfold new_snapshot.
  apply never_exits_bind; [apply never_exits_path_exists|]. intros [|].
  - apply never_exits_ret.
  - apply never_exits_bind; [apply never_exits_mkdir_parents|]. intros _.
    apply never_exits_bind; [apply never_exits_path_exists|]. intros b.
    apply never_exits_bind; [|intros _; apply never_exits_symlink_to].
    destruct b; [|apply never_exits_ret].
    apply never_exits_bind; [apply never_exits_is_symlink|]. intros [|].
    + apply never_exits_unlink.
    + apply never_exits_raise.
Qed.

Lemma never_exits_export_dataset o e : never_exits (export_dataset o e).
Proof.
  unfold export_dataset.
  apply never_exits_bind; [apply never_exits_new_snapshot|]. intros _.
  apply never_exits_for_each. intros [content suffix].
  apply never_exits_bind; [apply never_exits_write|]. intros _.
  apply never_exits_emit.
Qed.

(** If [cwd.cache.is_dataset] is a method, as lines 376 and 948 call
    it, the test of line 499 never fires: an export with a format flag
    from below the anchor goes on to the dataset export whatever the
    method would return, and does not exit. *)
Lemma export_method_never_exits (o : Cli.Options) (e : ExportEnv) (call : bool) :
  cwd e <> cwd_cache_anchor e ->
  Cli.ttl o || Cli.json o = true ->
  cwd_cache_is_dataset e = Method call ->
  export o e = export_dataset o e /\ never_exits (export o e).
Proof.
  intros Hcwd Hfmt Hattr.
  assert (E : export o e = export_dataset o e).
  { unfold export. rewrite Hattr, Hfmt. simpl.
    rewrite bool_decide_eq_false_2 by exact Hcwd. reflexivity. }
  split; [exact E|]. rewrite E. apply never_exits_export_dataset.
Qed.

(** Were [is_dataset] a plain false value, the same call would print
    the message and exit with status 123. *)
Lemma export_property_exits_123 (o : Cli.Options) (e : ExportEnv) (w : world) :
  cwd e <> cwd_cache_anchor e ->
  Cli.ttl o || Cli.json o = true ->
  cwd_cache_is_dataset e = Property false ->
  export o e w =
    (Exit 123,
     {| fs := fs w;
        trace := trace w ++ [EvPrint (show (cwd e) ++ " is not at dataset level!")] |}).
Proof.
  intros Hcwd Hfmt Hattr. unfold export. rewrite Hattr, Hfmt. simpl.
  rewrite bool_decide_eq_false_2 by exact Hcwd. reflexivity.
Qed.

(** C1: [export] with [ttl] from [SPARC/heart/primary], a folder that
    is neither the anchor nor a dataset, where [is_dataset] is the
    method that returns [False]: the command does not exit with
    status 123 and prints no error; it links [LATEST] and writes the
    dataset export. *)
Theorem export_below_dataset_does_not_exit :
  fst (export (format_flags true false)
         (export_env (sparc ++ ["heart"; "primary"]) (Method false))
         project_world) = Val tt /\
  trace (snd (export (format_flags true false)
                (export_env (sparc ++ ["heart"; "primary"]) (Method false))
                project_world)) =
    [EvMkdir ["home"; "curation"; "export"; "N:organization:1"; "datasets";
              "N:dataset:1"; "2019-06-01T12:00:00,000001"];
     EvSymlink ["home"; "curation"; "export"; "N:organization:1"; "LATEST"]
               ["home"; "curation"; "export"; "N:organization:1"; "datasets";
                "N:dataset:1"; "2019-06-01T12:00:00,000001"];
     EvWrite ["home"; "curation"; "export"; "N:organization:1"; "datasets";
              "N:dataset:1"; "2019-06-01T12:00:00,000001"; "curation-export.ttl"]
             "@prefix";
     EvPrint "dataset graph exported to home/curation/export/N:organization:1/datasets/N:dataset:1/2019-06-01T12:00:00,000001/curation-export.ttl"].
Proof. split; vm_compute; reflexivity. Qed.

(** *** What a command emits *)

Lemma emits_ret {A} P (a : A) : emits_only P (ret a).
Proof.
  intros w out w' H. inversion H; subst. exists []. now rewrite app_nil_r.
Qed.

Lemma emits_bind {A B} P (m : M A) (k : A -> M B) :
  emits_only P m -> (forall a, emits_only P (k a)) -> emits_only P (bindM m k).
Proof.
  intros Hm Hk w out w' H. unfold bindM in H.
  destruct (m w) as [r w1] eqn:E.
  destruct (Hm w r w1 E) as (evs1 & T1 & F1).
  destruct r as [a|c|x].
  - destruct (Hk a w1 out w' H) as (evs2 & T2 & F2).
    exists (evs1 ++ evs2). split.
    + now rewrite T2, T1, app_assoc.
    + apply Forall_app. now split.
  - inversion H; subst. eauto.
  - inversion H; subst. eauto.
Qed.

Lemma emits_emit (P : event -> Prop) ev : P ev -> emits_only P (emit ev).
Proof.
  intros Hev w out w' H. inversion H; subst. exists [ev]. simpl.
  split; [reflexivity|now constructor].
Qed.

Lemma emits_write (P : event -> Prop) out content :
  P (EvWrite out content) -> emits_only P (write_file out content).
Proof.
  intros Hev w r w' H. inversion H; subst. exists [EvWrite out content]. simpl.
  split; [reflexivity|now constructor].
Qed.

Lemma emits_mkdir (P : event -> Prop) p : P (EvMkdir p) -> emits_only P (mkdir p).
Proof.
  intros Hev w r w' H. unfold mkdir in H.
  destruct (fs w !! p); inversion H; subst; simpl.
  - exists []. now rewrite app_nil_r.
  - exists [EvMkdir p]. split; [reflexivity|now constructor].
Qed.

Lemma emits_for_each {A} P (xs : list A) (body : A -> M unit) :
  (forall x, emits_only P (body x)) -> emits_only P (for_each xs body).
Proof.
  intros Hb. induction xs as [|x xs IH]; simpl.
  - apply emits_ret.
  - apply emits_bind; [apply Hb|intros _; exact IH].
Qed.

Lemma bindM_val {A B} (m : M A) (k : A -> M B) w b w' :
  bindM m k w = (Val b, w') ->
  exists a w1, m w = (Val a, w1) /\ k a w1 = (Val b, w').
Proof.
  unfold bindM. destruct (m w) as [[a|c|x] w1]; intros H; try discriminate.
  eauto.
Qed.

(** The writes of a dataset export, lines 516-540. *)
Lemma emits_dataset_content o e dump :
  emits_only content_event
    (for_each
       ((if Cli.json o then [(ft_data e, ".json")] else []) ++
        (if Cli.ttl o then [(ft_ttl e, ".ttl")] else []))
       (fun '(content, suffix) =>
          let out := with_suffix (child dump "curation-export") suffix in
          write_file out content;;
          print ("dataset graph exported to " ++ show out))).
Proof.
  apply emits_for_each. intros [content suffix].
  apply emits_bind; [now apply emits_write|]. intros _.
  now apply emits_emit.
Qed.

(** A new snapshot directory is created, then [LATEST] is removed if
    it was there, then [LATEST] is linked to the directory. *)
Lemma new_snapshot_trace dump latest w w' :
  fs w !! dump = None ->
  new_snapshot dump latest w = (Val tt, w') ->
  exists mid,
    (mid = [] \/ mid = [EvUnlink latest]) /\
    trace w' = trace w ++ EvMkdir dump :: mid ++ [EvSymlink latest dump].
Proof.
  intros Hnew H. unfold new_snapshot, bindM, path_exists, mkdir_parents in H.
  rewrite Hnew in H. simpl in H.
  unfold is_symlink, unlink, symlink_to, raise, ret in H. simpl in H.
  repeat match type of H with
         | context [match ?x with _ => _ end] =>
             lazymatch x with
             | context [match _ with _ => _ end] => fail
             | _ => destruct x eqn:?
             end; simpl in H; try discriminate
         end.
  all: inversion H; subst; simpl.
  all: first [ exists []; split; [now left|]; now rewrite <- app_assoc
             | exists [EvUnlink latest]; split; [now right|]; now rewrite <- !app_assoc ].
Qed.

Lemma with_suffix_child (p : loc) (name suffix : string) :
  with_suffix (child p name) suffix = child p (name ++ suffix).
Proof.
  unfold with_suffix, child. now rewrite removelast_last, last_last.
Qed.

Lemma dataset_content_writes dump (outputs : list (string * string)) :
  forall w w',
    for_each outputs
      (fun '(content, suffix) =>
         let out := with_suffix (child dump "curation-export") suffix in
         write_file out content;;
         print ("dataset graph exported to " ++ show out)) w = (Val tt, w') ->
    exists evs,
      trace w' = trace w ++ evs /\
      Forall content_event evs /\
      forall content suffix,
        In (content, suffix) outputs ->
        In (EvWrite (with_suffix (child dump "curation-export") suffix) content) evs.
Proof.
  induction outputs as [|[c s] outputs IH]; intros w w' H.
  - inversion H; subst. exists []. rewrite app_nil_r.
    repeat split; [constructor|]. intros ? ? [].
  - simpl in H. apply bindM_val in H as ([] & w1 & H1 & H2).
    destruct (IH w1 w' H2) as (evs & T & F & I).
    unfold bindM, write_file, print, emit in H1. simpl in H1.
    inversion H1; subst w1; clear H1. simpl in T.
    eexists. split; [rewrite T, <- !app_assoc; reflexivity|]. split.
    + repeat (constructor; [exact Logic.I|]). exact F.
    + intros content suffix [E|Hin].
      * inversion E; subst. now left.
      * right. right. now apply I.
Qed.

(** The writes of a project-wide export, lines 560-595. *)
Lemma project_content_writes o e dump w w' :
  (let filepath := child dump "curation-export" in
   for_each (summary_xml e) (fun '(xml_name, xml) =>
     write_file (with_suffix filepath ("." ++ xml_name ++ ".xml")) xml);;
   write_file (with_suffix filepath ".json") (summary_data e);;
   write_file (with_suffix filepath ".ttl") (summary_ttl e);;
   for_each (summary_disco e) (fun '(table_name, tabular) =>
     write_file (with_suffix filepath ("." ++ table_name ++ ".tsv")) tabular);;
   if Cli.datasets o then
     let dataset_dump_path := child dump "datasets" in
     mkdir dataset_dump_path;;
     for_each (summary_iter e) (fun '(d_id, d_ttl) =>
       let out := with_suffix (child dataset_dump_path d_id) ".ttl" in
       write_file out d_ttl;;
       print ("dataset graph exported to " ++ show out))
   else if Cli.debug o then emit EvEmbed
   else ret tt) w = (Val tt, w') ->
  exists evs,
    trace w' = trace w ++ evs /\
    Forall content_event evs /\
    In (EvWrite (with_suffix (child dump "curation-export") ".json") (summary_data e)) evs.
Proof.
  cbv zeta. intros H.
  apply bindM_val in H as ([] & w1 & H1 & H).
  apply bindM_val in H as ([] & w2 & H2 & H).
  assert (X : emits_only content_event
                (for_each (summary_xml e) (fun '(xml_name, xml) =>
                   write_file (with_suffix (child dump "curation-export")
                                 ("." ++ xml_name ++ ".xml")) xml))).
  { apply emits_for_each. intros [n x]. now apply emits_write. }
  destruct (X _ _ _ H1) as (evs1 & T1 & F1).
  inversion H2; subst w2; clear H2.
  match type of H with
  | ?m _ = _ =>
      assert (Y : emits_only content_event m)
  end.
  { apply emits_bind; [now apply emits_write|]. intros _.
    apply emits_bind.
    { apply emits_for_each. intros [n x]. now apply emits_write. }
    intros _. destruct (Cli.datasets o).
    - apply emits_bind; [now apply emits_mkdir|]. intros _.
      apply emits_for_each. intros [n x].
      apply emits_bind; [now apply emits_write|]. intros _. now apply emits_emit.
    - destruct (Cli.debug o); [now apply emits_emit|apply emits_ret]. }
  destruct (Y _ _ _ H) as (evs3 & T3 & F3). simpl in T3.
  eexists. split; [rewrite T3, T1, <- !app_assoc; reflexivity|]. split.
  - apply Forall_app. split; [exact F1|]. constructor; [exact Logic.I|exact F3].
  - apply in_or_app. right. now left.
Qed.

(** C2 (amended): in every successful export that creates its
    snapshot directory, in single-dataset and in project-wide mode,
    [LATEST] is removed if it was there and linked to the new
    directory right after the directory is created and before any of
    its content is written: what follows the link contains no further
    change of a link, and contains the requested JSON and Turtle
    writes of a single-dataset export and the JSON write of a
    project-wide export. *)
Theorem export_relinks_before_writing (o : Cli.Options) (e : ExportEnv) (w w' : world) :
  export o e w = (Val tt, w') ->
  fs w !! snapshot_dir o e = None ->
  exists mid rest,
    trace w' =
      trace w ++ EvMkdir (snapshot_dir o e) :: mid
              ++ EvSymlink (LATEST e) (snapshot_dir o e) :: rest /\
    (mid = [] \/ mid = [EvUnlink (LATEST e)]) /\
    Forall content_event rest /\
    (single_dataset_mode o e = true -> Cli.json o = true ->
     In (EvWrite (child (snapshot_dir o e) "curation-export.json") (ft_data e)) rest) /\
    (single_dataset_mode o e = true -> Cli.ttl o = true ->
     In (EvWrite (child (snapshot_dir o e) "curation-export.ttl") (ft_ttl e)) rest) /\
    (single_dataset_mode o e = false ->
     In (EvWrite (child (snapshot_dir o e) "curation-export.json") (summary_data e)) rest).
Proof.
  intros H Hnew. unfold export in H. unfold snapshot_dir in *.
  fold (single_dataset_mode o e) in H.
  destruct (single_dataset_mode o e) eqn:Mode.
  - destruct (truthy (cwd_cache_is_dataset e)); simpl in H; [|discriminate].
    unfold export_dataset in H.
    apply bindM_val in H as ([] & w1 & H1 & H2).
    destruct (new_snapshot_trace _ _ _ _ Hnew H1) as (mid & Hmid & T1).
    destruct (dataset_content_writes _ _ _ _ H2) as (rest & T2 & F & I).
    exists mid, rest. split; [|split; [exact Hmid|split; [exact F|]]].
    + rewrite T2, T1, <- !app_assoc. simpl. now rewrite <- app_assoc.
    + split; [|split; [|discriminate]]; intros _ Hflag.
      * rewrite <- (with_suffix_child _ "curation-export" ".json").
        apply (I (ft_data e) ".json"). rewrite Hflag. now left.
      * rewrite <- (with_suffix_child _ "curation-export" ".ttl").
        apply (I (ft_ttl e) ".ttl"). rewrite Hflag. apply in_or_app. right. now left.
  - unfold export_project in H.
    apply bindM_val in H as ([] & w1 & H1 & H2).
    destruct (new_snapshot_trace _ _ _ _ Hnew H1) as (mid & Hmid & T1).
    destruct (project_content_writes _ _ _ _ _ H2) as (rest & T2 & F & I).
    exists mid, rest. split; [|split; [exact Hmid|split; [exact F|]]].
    + rewrite T2, T1, <- !app_assoc. simpl. now rewrite <- app_assoc.
    + split; [discriminate|split; [discriminate|]]. intros _.
      rewrite <- (with_suffix_child _ "curation-export" ".json"). exact I.
Qed.

(** C2, witness: a first project-wide export of the sample project. *)
Lemma export_relinks_witness :
  fs project_world !! snapshot_dir (format_flags false false)
                        (export_env sparc (Method false)) = None /\
  exists mid rest,
    trace (snd (export (format_flags false false)
                  (export_env sparc (Method false)) project_world)) =
      trace project_world
        ++ EvMkdir (snapshot_dir (format_flags false false)
                      (export_env sparc (Method false))) :: mid
        ++ EvSymlink (LATEST (export_env sparc (Method false)))
             (snapshot_dir (format_flags false false)
                (export_env sparc (Method false))) :: rest /\
    (mid = [] \/ mid = [EvUnlink (LATEST (export_env sparc (Method false)))]) /\
    Forall content_event rest.
Proof.
  split; [vm_compute; reflexivity|].
  destruct (export_relinks_before_writing (format_flags false false)
              (export_env sparc (Method false)) project_world
              (snd (export (format_flags false false)
                      (export_env sparc (Method false)) project_world)))
    as (mid & rest & T & Hmid & F & _).
  - vm_compute. reflexivity.
  - vm_compute. reflexivity.
  - exists mid, rest. auto.
Defined.

(** C2, counterexample: in a project-wide export and in a
    single-dataset export of the sample project, [LATEST] already
    points at the new snapshot directory when the first file is
    written into it. *)
Lemma export_links_before_content :
  ~ relinked_after_writes
      (LATEST (export_env sparc (Method false)))
      (snapshot_dir (format_flags false false) (export_env sparc (Method false)))
      (trace (snd (export (format_flags false false)
                     (export_env sparc (Method false)) project_world))) /\
  ~ relinked_after_writes
      (LATEST (export_env (sparc ++ ["heart"]) (Property true)))
      (snapshot_dir (format_flags true true)
         (export_env (sparc ++ ["heart"]) (Property true)))
      (trace (snd (export (format_flags true true)
                     (export_env (sparc ++ ["heart"]) (Property true))
                     project_world))).
Proof.
  split; intros H.
  - apply (H [EvMkdir (snapshot_dir (format_flags false false)
                         (export_env sparc (Method false)))]
             (skipn 2 (trace (snd (export (format_flags false false)
                                     (export_env sparc (Method false))
                                     project_world))))
             ltac:(vm_compute; reflexivity)
             (child (snapshot_dir (format_flags false false)
                       (export_env sparc (Method false))) "curation-export.json")
             "{}").
    vm_compute. right. left. reflexivity.
  - apply (H [EvMkdir (snapshot_dir (format_flags true true)
                         (export_env (sparc ++ ["heart"]) (Property true)))]
             (skipn 2 (trace (snd (export (format_flags true true)
                                     (export_env (sparc ++ ["heart"]) (Property true))
                                     project_world))))
             ltac:(vm_compute; reflexivity)
             (child (snapshot_dir (format_flags true true)
                       (export_env (sparc ++ ["heart"]) (Property true)))
                "curation-export.json")
             "{}").
    vm_compute. left. reflexivity.
Qed.

End ExportFacts.

(** * Further facts about [sparcur/core.py] *)

Section PythonIdentifierMore.
Import Core Props CoreNotions.














End PythonIdentifierMore.

Section OrcidMore.
Import Core Props CoreNotions.

Lemma replace_absent (old : char) (new s : str) :
  Forall (fun c => c <> old) s -> replace old new s = s.
Proof.
  induction 1 as [|c s Hc _ IH]; [reflexivity|]. simpl.
  destruct (N.eqb_spec c old); [contradiction|]. now rewrite IH.
Qed.

(** *** What the ASCII part of the table gives *)

Lemma sample_decimal_ascii : extends_ascii sample_decimal.
Proof.
  intros c Hc. unfold sample_decimal, ascii_decimal.
  destruct (isdigit c); [reflexivity|].
  destruct (N.leb_spec 1632 c); [lia|reflexivity].
Qed.

Lemma sample_decimal_values : decimal_values sample_decimal.
Proof.
  intros c v. unfold sample_decimal, isdigit.
  destruct (N.leb_spec 48 c), (N.leb_spec c 57); simpl;
    try (intros E; injection E as <-; lia);
    destruct (N.leb_spec 1632 c), (N.leb_spec c 1641); simpl;
    try discriminate; intros E; injection E as <-; lia.
Qed.

Lemma hyphen_no_digit decimal :
  extends_ascii decimal -> is_digit decimal c_hyphen = false.
Proof. intros Ha. unfold is_digit. now rewrite (Ha c_hyphen eq_refl). Qed.

Lemma X_no_digit decimal :
  extends_ascii decimal -> is_digit decimal c_X = false.
Proof. intros Ha. unfold is_digit. now rewrite (Ha c_X eq_refl). Qed.

Lemma digit_not_hyphen decimal c :
  extends_ascii decimal -> is_digit decimal c = true -> c <> c_hyphen.
Proof. intros Ha H ->. rewrite (hyphen_no_digit decimal Ha) in H. discriminate. Qed.

Lemma digit_not_X decimal c :
  extends_ascii decimal -> is_digit decimal c = true -> c <> c_X.
Proof. intros Ha H ->. rewrite (X_no_digit decimal Ha) in H. discriminate. Qed.

Lemma ascii_digit decimal c :
  extends_ascii decimal -> isdigit c = true ->
  decimal c = Some (Z.of_N c - 48).
Proof.
  intros Ha H. rewrite (Ha c).
  - unfold ascii_decimal. now rewrite H.
  - unfold isdigit in H. apply andb_true_iff in H as [_ H].
    apply N.leb_le in H. lia.
Qed.

Lemma ascii_digit_is_digit decimal c :
  extends_ascii decimal -> isdigit c = true -> is_digit decimal c = true.
Proof. intros Ha H. unfold is_digit. now rewrite (ascii_digit decimal c Ha H). Qed.

Lemma ascii_digit_value decimal c :
  extends_ascii decimal -> isdigit c = true ->
  digit_value decimal c = Z.of_N c - 48.
Proof. intros Ha H. unfold digit_value. now rewrite (ascii_digit decimal c Ha H). Qed.

Lemma check_char_parses decimal c :
  extends_ascii decimal -> is_check_char c ->
  is_digit decimal c = true \/ c = c_X.
Proof. intros Ha [H|H]; [left; now apply ascii_digit_is_digit|now right]. Qed.

Lemma check_char_not_hyphen c : is_check_char c -> c <> c_hyphen.
Proof. intros [H| ->]; [intros ->|]; discriminate. Qed.

Lemma dehyphen_digits decimal ds c :
  extends_ascii decimal -> all_digits decimal ds -> c <> c_hyphen ->
  replace c_hyphen [] (ds ++ [c]) = ds ++ [c].
Proof.
  intros Ha Hds Hc. apply replace_absent, Forall_app. split.
  - eapply Forall_impl; [exact Hds|]. intros x. now apply digit_not_hyphen.
  - now constructor.
Qed.

(** The value of [checksumValid] on digits followed by a check
    character. *)
Lemma checksumValid_digits decimal ds c :
  extends_ascii decimal -> all_digits decimal ds -> is_check_char c ->
  checksumValid decimal (ds ++ [c]) =
    Ok ((12 - spec_total decimal ds mod 11) mod 11 =? check_value decimal c).
Proof.
  intros Ha Hds Hc. apply checksumValid_parsed; [|exact Hds|].
  - apply (dehyphen_digits decimal ds c Ha Hds). now apply check_char_not_hyphen.
  - now apply check_char_parses.
Qed.

Lemma ascii_digit_range c : isdigit c = true -> 0 <= Z.of_N c - 48 <= 9.
Proof.
  unfold isdigit. intros H.
  apply andb_true_iff in H as [H1 H2]. apply N.leb_le in H1, H2. lia.
Qed.

Lemma check_value_inj decimal c c' :
  extends_ascii decimal ->
  is_check_char c -> is_check_char c' ->
  check_value decimal c = check_value decimal c' -> c = c'.
Proof.
  intros Ha Hc Hc'. unfold check_value.
  destruct (N.eqb_spec c c_X) as [->|Hn], (N.eqb_spec c' c_X) as [->|Hn'];
    try reflexivity.
  - destruct Hc' as [Hc'|]; [|contradiction].
    rewrite (ascii_digit_value decimal c' Ha Hc').
    pose proof (ascii_digit_range c' Hc'). lia.
  - destruct Hc as [Hc|]; [|contradiction].
    rewrite (ascii_digit_value decimal c Ha Hc).
    pose proof (ascii_digit_range c Hc). lia.
  - destruct Hc as [Hc|]; [|contradiction].
    destruct Hc' as [Hc'|]; [|contradiction].
    rewrite (ascii_digit_value decimal c Ha Hc),
            (ascii_digit_value decimal c' Ha Hc'). lia.
Qed.

Lemma check_char_value decimal v :
  extends_ascii decimal -> 0 <= v <= 10 ->
  is_check_char (check_char v) /\ check_value decimal (check_char v) = v.
Proof.
  intros Ha Hv. unfold check_char. destruct (Z.eqb_spec v 10) as [->|Hne].
  - split; [now right|reflexivity].
  - assert (Hd : isdigit (Z.to_N (48 + v)) = true).
    { unfold isdigit. apply andb_true_iff. split; apply N.leb_le; lia. }
    split; [now left|]. unfold check_value.
    destruct (N.eqb_spec (Z.to_N (48 + v)) c_X) as [E|_].
    + unfold c_X in E. lia.
    + rewrite (ascii_digit_value decimal _ Ha Hd). lia.
Qed.

(** X3: for every sequence of digits there is exactly one check
    character, an ASCII digit or [X], that makes the identifier
    valid. *)
Theorem checksumValid_unique_check (decimal : char -> option Z) (ds : str) :
  extends_ascii decimal ->
  all_digits decimal ds ->
  exists c,
    is_check_char c /\
    checksumValid decimal (ds ++ [c]) = Ok true /\
    forall c', is_check_char c' ->
               checksumValid decimal (ds ++ [c']) = Ok true -> c' = c.
Proof.
  intros Ha Hds. set (v := (12 - spec_total decimal ds mod 11) mod 11).
  assert (Hv : 0 <= v <= 10).
  { unfold v. pose proof (Z.mod_pos_bound (12 - spec_total decimal ds mod 11) 11). lia. }
  destruct (check_char_value decimal v Ha Hv) as [Hc Hval].
  exists (check_char v). split; [exact Hc|]. split.
  - rewrite (checksumValid_digits decimal ds _ Ha Hds Hc). fold v. rewrite Hval.
    now rewrite Z.eqb_refl.
  - intros c' Hc' H.
    rewrite (checksumValid_digits decimal ds c' Ha Hds Hc') in H. fold v in H.
    injection H as H. apply Z.eqb_eq in H.
    apply (check_value_inj decimal); [exact Ha|exact Hc'|exact Hc|].
    now rewrite Hval.
Qed.

(** X3, witness: the first fifteen digits of the sample identifier. *)
Lemma checksumValid_unique_check_witness :
  exists c,
    is_check_char c /\
    checksumValid sample_decimal (lit "000000021825009" ++ [c]) = Ok true /\
    forall c', is_check_char c' ->
               checksumValid sample_decimal (lit "000000021825009" ++ [c']) = Ok true ->
               c' = c.
Proof.
  apply (checksumValid_unique_check sample_decimal (lit "000000021825009")).
  - exact sample_decimal_ascii.
  - repeat constructor.
Defined.

(** *** The weighted sum behind the checksum *)

Lemma total_fold_shift decimal (l : str) : forall t,
  fold_left (fun total c => (total + digit_value decimal c) * 2) l t =
    t * 2 ^ Z.of_nat (length l) + spec_total decimal l.
Proof.
  unfold spec_total. induction l as [|c l IH]; intros t.
  - simpl. lia.
  - simpl fold_left. rewrite IH, (IH ((0 + digit_value decimal c) * 2)).
    rewrite length_cons, Nat2Z.inj_succ, Z.pow_succ_r by lia. ring.
Qed.

Lemma spec_total_app decimal (a b : str) :
  spec_total decimal (a ++ b) =
    spec_total decimal a * 2 ^ Z.of_nat (length b) + spec_total decimal b.
Proof.
  unfold spec_total at 1. rewrite fold_left_app.
  fold (spec_total decimal a). apply total_fold_shift.
Qed.

Lemma spec_total_cons decimal c (l : str) :
  spec_total decimal (c :: l) =
    digit_value decimal c * 2 ^ (Z.of_nat (length l) + 1) + spec_total decimal l.
Proof.
  change (c :: l) with ([c] ++ l). rewrite spec_total_app.
  rewrite Z.pow_add_r by lia. unfold spec_total at 1. simpl. ring.
Qed.

Lemma spec_total_snoc decimal (l : str) c :
  spec_total decimal (l ++ [c]) = spec_total decimal l * 2 + digit_value decimal c * 2.
Proof.
  rewrite spec_total_app. change (Z.of_nat (length [c])) with 1.
  unfold spec_total at 2. cbn [fold_left]. rewrite Z.pow_1_r. ring.
Qed.

Lemma coprime_11_pow2 k : 0 <= k -> Z.gcd 11 (2 ^ k) = 1.
Proof. intros Hk. apply (Z.coprime_pow_r 11 2 k Hk). reflexivity. Qed.

(** A difference of the weighted sums that is a small non-zero multiple
    of a power of two changes the sum modulo 11. *)
Lemma small_shift_changes_mod (t t' delta k : Z) :
  0 <= k -> delta <> 0 -> -9 <= delta <= 9 ->
  t - t' = delta * 2 ^ k ->
  t mod 11 <> t' mod 11.
Proof.
  intros Hk Hd Hr E Hmod.
  assert (Hdiv : (11 | delta * 2 ^ k)).
  { rewrite <- E. apply Z.mod_divide; [lia|].
    rewrite Zminus_mod, Hmod, Z.sub_diag. reflexivity. }
  rewrite Z.mul_comm in Hdiv.
  apply Z.gauss in Hdiv; [|now apply coprime_11_pow2].
  destruct Hdiv as [q Hq]. lia.
Qed.

Lemma expected_check_inj (r r' : Z) :
  0 <= r < 11 -> 0 <= r' < 11 -> (12 - r) mod 11 = (12 - r') mod 11 -> r = r'.
Proof.
  intros Hr Hr' E.
  assert (Hdiv : (11 | r' - r)).
  { apply Z.mod_divide; [lia|].
    replace (r' - r) with ((12 - r) - (12 - r')) by ring.
    rewrite Zminus_mod, E, Z.sub_diag. reflexivity. }
  destruct Hdiv as [q Hq]. lia.
Qed.

(** Two suffixes with the same check character whose digits differ by
    such a shift are not both valid. *)
Lemma checksum_detects decimal (s s' ds ds' : str) (c : char) (delta k : Z) :
  replace c_hyphen [] s = ds ++ [c] ->
  replace c_hyphen [] s' = ds' ++ [c] ->
  all_digits decimal ds -> all_digits decimal ds' ->
  is_digit decimal c = true \/ c = c_X ->
  0 <= k -> delta <> 0 -> -9 <= delta <= 9 ->
  spec_total decimal ds - spec_total decimal ds' = delta * 2 ^ k ->
  checksumValid decimal s = Ok true ->
  checksumValid decimal s' = Ok false.
Proof.
  intros Es Es' Hds Hds' Hc Hk Hd Hr E H.
  rewrite (checksumValid_parsed decimal s ds c Es Hds Hc) in H.
  rewrite (checksumValid_parsed decimal s' ds' c Es' Hds' Hc). f_equal.
  injection H as H. apply Z.eqb_eq in H. apply Z.eqb_neq. intros H'.
  apply (small_shift_changes_mod _ _ delta k Hk Hd Hr E).
  apply expected_check_inj; try (apply Z.mod_pos_bound; lia). congruence.
Qed.

(** A suffix on which [checksumValid] returns has parsed. *)
Lemma checksumValid_returns decimal (s : str) (b : bool) :
  checksumValid decimal s = Ok b ->
  exists ds c,
    replace c_hyphen [] s = ds ++ [c] /\ all_digits decimal ds /\
    (is_digit decimal c = true \/ c = c_X).
Proof.
  intros H.
  assert (Hp : ~ ~ parses decimal (replace c_hyphen [] s)).
  { intros Hn. rewrite (checksumValid_unparsed decimal s Hn) in H. discriminate. }
  destruct (replace c_hyphen [] s) as [|c0 s0] eqn:E.
  - exfalso. apply Hp. intros (ds & c & E' & _). now destruct ds.
  - destruct (unpack_last_nonempty (c0 :: s0)) as (ds & c & E'); [discriminate|].
    rewrite E' in *. exists ds, c. split; [reflexivity|].
    destruct (all_digits_dec decimal ds) as [Hds|Hds].
    + split; [exact Hds|].
      destruct (is_digit decimal c) eqn:Hc; [now left|].
      destruct (N.eq_dec c c_X) as [->|Hne]; [now right|].
      exfalso. apply Hp. intros (ds2 & c2 & E2 & _ & Hc2).
      apply app_inj_tail in E2 as [_ <-].
      destruct Hc2 as [Hc2|Hc2]; congruence.
    + exfalso. apply Hp. intros (ds2 & c2 & E2 & Hds2 & _).
      apply app_inj_tail in E2 as [<- _]. contradiction.
Qed.

Lemma dehyphen_around decimal (pre post : str) (a : char) :
  extends_ascii decimal -> is_digit decimal a = true ->
  replace c_hyphen [] (pre ++ a :: post) =
    replace c_hyphen [] pre ++ a :: replace c_hyphen [] post.
Proof.
  intros Ha Hd. rewrite replace_app. simpl.
  destruct (N.eqb_spec a c_hyphen) as [E|_]; [|reflexivity].
  now destruct (digit_not_hyphen decimal a Ha Hd).
Qed.

Lemma dehyphen_hyphens (mid : str) :
  Forall (fun c => c = c_hyphen) mid -> replace c_hyphen [] mid = [].
Proof. induction 1 as [|c mid -> _ IH]; [reflexivity|exact IH]. Qed.

Lemma some_is_digit decimal c v :
  decimal c = Some v -> is_digit decimal c = true /\ digit_value decimal c = v.
Proof. intros E. unfold is_digit, digit_value. now rewrite E. Qed.

Lemma digit_check_value decimal c :
  extends_ascii decimal -> is_digit decimal c = true ->
  check_value decimal c = digit_value decimal c.
Proof.
  intros Ha Hd. unfold check_value.
  destruct (N.eqb_spec c c_X) as [->|_]; [|reflexivity].
  now destruct (digit_not_X decimal c_X Ha Hd).
Qed.

(** X4: replacing any one digit of a valid identifier, with or without
    hyphens and the check digit included, by a digit of another value
    always makes it invalid. *)
Theorem checksumValid_detects_substitution (decimal : char -> option Z)
    (pre post : str) (a b : char) (va vb : Z) :
  extends_ascii decimal -> decimal_values decimal ->
  decimal a = Some va -> decimal b = Some vb -> va <> vb ->
  checksumValid decimal (pre ++ a :: post) = Ok true ->
  checksumValid decimal (pre ++ b :: post) = Ok false.
Proof.
  intros Ha Hv Ea Eb Hne H.
  destruct (some_is_digit decimal a va Ea) as [Hda Hva].
  destruct (some_is_digit decimal b vb Eb) as [Hdb Hvb].
  pose proof (Hv a va Ea) as Ra. pose proof (Hv b vb Eb) as Rb.
  destruct (checksumValid_returns decimal _ _ H) as (ds & c & E & Hds & Hc).
  pose proof (dehyphen_around decimal pre post a Ha Hda) as Da.
  pose proof (dehyphen_around decimal pre post b Ha Hdb) as Db.
  remember (replace c_hyphen [] pre) as P eqn:EP.
  remember (replace c_hyphen [] post) as Q eqn:EQ.
  clear EP EQ. rewrite Da in E.
  destruct Q as [|c' Q _] using rev_ind.
  - (* the digit replaced is the check digit *)
    apply app_inj_tail in E as [<- <-].
    rewrite (checksumValid_parsed decimal _ P a Da Hds (or_introl Hda)) in H.
    rewrite (checksumValid_parsed decimal _ P b Db Hds (or_introl Hdb)).
    rewrite (digit_check_value decimal a Ha Hda), Hva in H.
    rewrite (digit_check_value decimal b Ha Hdb), Hvb.
    injection H as H. apply Z.eqb_eq in H. f_equal. apply Z.eqb_neq. lia.
  - (* a digit before the check character *)
    rewrite app_comm_cons, app_assoc in E, Da, Db.
    apply app_inj_tail in E as [<- <-].
    apply Forall_app in Hds as [HP HQ]. apply Forall_cons in HQ as [_ HQ'].
    apply (checksum_detects decimal (pre ++ a :: post) (pre ++ b :: post)
             (P ++ a :: Q) (P ++ b :: Q) c' (va - vb) (Z.of_nat (length Q) + 1)).
    + exact Da.
    + exact Db.
    + apply Forall_app. split; [exact HP|now constructor].
    + apply Forall_app. split; [exact HP|now constructor].
    + exact Hc.
    + lia.
    + lia.
    + lia.
    + rewrite !spec_total_app, !spec_total_cons, Hva, Hvb. simpl length. ring.
    + exact H.
Qed.

(** X4, witness: the sample identifier, hyphens and all, with its
    tenth digit changed from 8 to 3, and with its check digit changed
    from 7 to the Arabic-Indic digit four. *)
Lemma checksumValid_detects_substitution_witness :
  checksumValid sample_decimal (lit "0000-0002-1825-0097") = Ok true /\
  checksumValid sample_decimal (lit "0000-0002-1325-0097") = Ok false /\
  checksumValid sample_decimal (lit "0000-0002-1825-009" ++ [1636%N]) = Ok false.
Proof.
  split; [reflexivity|]. split.
  - apply (checksumValid_detects_substitution sample_decimal
             (lit "0000-0002-1") (lit "25-0097") 56%N 51%N 8 3);
      [exact sample_decimal_ascii|exact sample_decimal_values
      |reflexivity|reflexivity|lia|reflexivity].
  - apply (checksumValid_detects_substitution sample_decimal
             (lit "0000-0002-1825-009") [] 55%N 1636%N 7 4);
      [exact sample_decimal_ascii|exact sample_decimal_values
      |reflexivity|reflexivity|lia|reflexivity].
Defined.

(** Swapping the last digit with the check digit. *)
Lemma swap_with_check (t va vb : Z) :
  0 <= va <= 9 -> 0 <= vb <= 9 -> va <> vb ->
  (12 - (t + va * 2) mod 11) mod 11 = vb ->
  (12 - (t + vb * 2) mod 11) mod 11 <> va.
Proof.
  intros Ra Rb Hne H H'. Z.div_mod_to_equations. lia.
Qed.

(** X5: swapping two neighbouring digits of different values in a
    valid identifier, across a hyphen or not and the check digit
    included, always makes it invalid. *)
Theorem checksumValid_detects_transposition (decimal : char -> option Z)
    (pre mid post : str) (a b : char) (va vb : Z) :
  extends_ascii decimal -> decimal_values decimal ->
  decimal a = Some va -> decimal b = Some vb -> va <> vb ->
  Forall (fun c => c = c_hyphen) mid ->
  checksumValid decimal (pre ++ a :: mid ++ b :: post) = Ok true ->
  checksumValid decimal (pre ++ b :: mid ++ a :: post) = Ok false.
Proof.
  intros Ha Hv Ea Eb Hne Hmid H.
  destruct (some_is_digit decimal a va Ea) as [Hda Hva].
  destruct (some_is_digit decimal b vb Eb) as [Hdb Hvb].
  pose proof (Hv a va Ea) as Ra. pose proof (Hv b vb Eb) as Rb.
  destruct (checksumValid_returns decimal _ _ H) as (ds & c & E & Hds & Hc).
  assert (Dab : replace c_hyphen [] (pre ++ a :: mid ++ b :: post) =
                replace c_hyphen [] pre ++ a :: b :: replace c_hyphen [] post).
  { rewrite (dehyphen_around decimal pre _ a Ha Hda). f_equal. f_equal.
    rewrite (dehyphen_around decimal mid post b Ha Hdb).
    now rewrite (dehyphen_hyphens mid Hmid). }
  assert (Dba : replace c_hyphen [] (pre ++ b :: mid ++ a :: post) =
                replace c_hyphen [] pre ++ b :: a :: replace c_hyphen [] post).
  { rewrite (dehyphen_around decimal pre _ b Ha Hdb). f_equal. f_equal.
    rewrite (dehyphen_around decimal mid post a Ha Hda).
    now rewrite (dehyphen_hyphens mid Hmid). }
  remember (replace c_hyphen [] pre) as P eqn:EP.
  remember (replace c_hyphen [] post) as Q eqn:EQ.
  clear EP EQ. rewrite Dab in E.
  destruct Q as [|c' Q _] using rev_ind.
  - (* the digits swapped are the last digit and the check digit *)
    change (P ++ [a; b]) with (P ++ [a] ++ [b]) in E, Dab.
    change (P ++ [b; a]) with (P ++ [b] ++ [a]) in Dba.
    rewrite app_assoc in E, Dab, Dba.
    apply app_inj_tail in E as [<- <-].
    apply Forall_app in Hds as [HP _].
    assert (HPa : all_digits decimal (P ++ [a])).
    { apply Forall_app. split; [exact HP|now constructor]. }
    assert (HPb : all_digits decimal (P ++ [b])).
    { apply Forall_app. split; [exact HP|now constructor]. }
    rewrite (checksumValid_parsed decimal _ (P ++ [a]) b Dab HPa (or_introl Hdb)) in H.
    rewrite (checksumValid_parsed decimal _ (P ++ [b]) a Dba HPb (or_introl Hda)).
    rewrite (digit_check_value decimal b Ha Hdb), Hvb, spec_total_snoc, Hva in H.
    rewrite (digit_check_value decimal a Ha Hda), Hva, spec_total_snoc, Hvb.
    injection H as H. apply Z.eqb_eq in H. f_equal. apply Z.eqb_neq.
    now apply swap_with_check.
  - (* both digits stand before the check character *)
    replace (P ++ a :: b :: Q ++ [c']) with ((P ++ a :: b :: Q) ++ [c'])
      in E, Dab by (now rewrite <- app_assoc).
    replace (P ++ b :: a :: Q ++ [c']) with ((P ++ b :: a :: Q) ++ [c'])
      in Dba by (now rewrite <- app_assoc).
    apply app_inj_tail in E as [<- <-].
    apply Forall_app in Hds as [HP HQ].
    apply Forall_cons in HQ as [_ HQ1]. apply Forall_cons in HQ1 as [_ HQ'].
    apply (checksum_detects decimal
             (pre ++ a :: mid ++ b :: post) (pre ++ b :: mid ++ a :: post)
             (P ++ a :: b :: Q) (P ++ b :: a :: Q) c' (va - vb)
             (Z.of_nat (length Q) + 1)).
    + exact Dab.
    + exact Dba.
    + apply Forall_app. split; [exact HP|]. constructor; [exact Hda|now constructor].
    + apply Forall_app. split; [exact HP|]. constructor; [exact Hdb|now constructor].
    + exact Hc.
    + lia.
    + lia.
    + lia.
    + rewrite !spec_total_app, !spec_total_cons, Hva, Hvb. simpl length.
      rewrite !Nat2Z.inj_succ. unfold Z.succ.
      rewrite !Z.pow_add_r by lia. ring.
    + exact H.
Qed.

(** X5, witness: the sample identifier with the digits 2 and 1 on
    either side of its second hyphen swapped, and with its last two
    digits swapped. *)
Lemma checksumValid_detects_transposition_witness :
  checksumValid sample_decimal (lit "0000-0002-1825-0097") = Ok true /\
  checksumValid sample_decimal (lit "0000-0001-2825-0097") = Ok false /\
  checksumValid sample_decimal (lit "0000-0002-1825-0079") = Ok false.
Proof.
  split; [reflexivity|]. split.
  - apply (checksumValid_detects_transposition sample_decimal
             (lit "0000-000") (lit "-") (lit "825-0097") 50%N 49%N 2 1);
      [exact sample_decimal_ascii|exact sample_decimal_values
      |reflexivity|reflexivity|lia|repeat constructor|reflexivity].
  - apply (checksumValid_detects_transposition sample_decimal
             (lit "0000-0002-1825-00") [] [] 57%N 55%N 9 7);
      [exact sample_decimal_ascii|exact sample_decimal_values
      |reflexivity|reflexivity|lia|constructor|reflexivity].
Defined.

End OrcidMore.

Section FileSizeMore.
Import FileSizeM.

Lemma to_float_exact (n : Z) : 0 <= n < 2 ^ 53 -> to_float n = Ok n.
Proof.
  intros [H0 H53]. unfold to_float.
  rewrite (Z.abs_eq n H0).
  assert (Hb : ((if n =? 0 then 0 else Z.log2 n + 1) <=? 53) = true).
  { apply Z.leb_le. destruct (Z.eqb_spec n 0) as [->|Hn]; [lia|].
    assert (Z.log2 n < 53) by (apply Z.log2_lt_pow2; lia). lia. }
  rewrite Hb.
  assert (Hlt : (2 ^ 1024 <=? n) = false).
  { apply Z.leb_gt. eapply Z.lt_trans; [exact H53|].
    apply Z.pow_lt_mono_r; lia. }
  rewrite Hlt. f_equal.
  destruct (Z.eq_dec n 0) as [->|Hn]; [reflexivity|].
  rewrite Z.sgn_pos by lia. lia.
Qed.

(** The loop of [sizeof_fmt] once [num] is a float [m / 2^e]: if [pre]
    are the units passed over and [u] the unit reached. *)
Lemma sizeof_fmt_loop_float (pre : list str) (u : str) (post : list str) (m : Z) :
  0 <= m ->
  forall e,
    0 <= e ->
    (pre <> [] -> 1024 * 2 ^ (e + 10 * (Z.of_nat (length pre) - 1)) <= m) ->
    m < 1024 * 2 ^ (e + 10 * Z.of_nat (length pre)) ->
    sizeof_fmt_loop (pre ++ u :: post) (PyFloat m e) [] =
      Ok (decimal (round_half_even m (e + 10 * Z.of_nat (length pre))) ++ u).
Proof.
  intros Hm. induction pre as [|p pre IH]; intros e He Hlo Hhi.
  - simpl length in *. rewrite Z.mul_0_r, Z.add_0_r in *.
    simpl sizeof_fmt_loop. unfold abs_lt_1024.
    rewrite (Z.abs_eq m Hm).
    replace (m <? 1024 * 2 ^ e) with true by (symmetry; now apply Z.ltb_lt).
    unfold fmt_0f, as_float, bind, sign_of. cbv beta iota.
    replace (m <? 0) with false by (symmetry; apply Z.ltb_ge; lia).
    rewrite ?(Z.abs_eq m Hm). cbv beta iota. now rewrite app_nil_r.
  - simpl app. simpl sizeof_fmt_loop. unfold abs_lt_1024.
    rewrite (Z.abs_eq m Hm).
    assert (Hge : 1024 * 2 ^ e <= m).
    { eapply Z.le_trans; [|apply Hlo; discriminate].
      apply Z.mul_le_mono_nonneg_l; [lia|].
      apply Z.pow_le_mono_r; [lia|]. rewrite length_cons. lia. }
    replace (m <? 1024 * 2 ^ e) with false by (symmetry; now apply Z.ltb_ge).
    unfold div_1024, bind.
    rewrite length_cons, Nat2Z.inj_succ in *.
    replace (e + 10 * Z.succ (Z.of_nat (length pre)))
      with (e + 10 + 10 * Z.of_nat (length pre)) in * by lia.
    apply IH; [lia| |exact Hhi].
    intros Hne.
    replace (e + 10 + 10 * (Z.of_nat (length pre) - 1))
      with (e + 10 * (Z.succ (Z.of_nat (length pre)) - 1)) by lia.
    apply Hlo. discriminate.
Qed.

Lemma pow_1024 (k : Z) : 0 <= k -> 1024 ^ k = 2 ^ (10 * k).
Proof. intros Hk. change 1024 with (2 ^ 10). now rewrite <- Z.pow_mul_r by lia. Qed.

(** X6: for a size below [2^53] that lies between [1024^k] and
    [1024^(k+1)], [hr] is the size divided by [1024^k], rounded to the
    nearest integer with ties to even, followed by the [k]-th unit of
    the list; sizes below 1024 are printed as they are. *)
Theorem hr_unit (n : Z) (k : nat) (u : str) :
  0 <= n < 2 ^ 53 ->
  units !! k = Some u ->
  (k = 0%nat \/ 1024 ^ Z.of_nat k <= n) ->
  n < 1024 ^ (Z.of_nat k + 1) ->
  hr n = Ok (decimal (round_half_even n (10 * Z.of_nat k)) ++ u).
Proof.
  intros [H0 H53] Hu Hlo Hhi. unfold hr.
  replace (0 <=? n) with true by (symmetry; now apply Z.leb_le).
  unfold sizeof_fmt.
  destruct k as [|k].
  - injection Hu as <-. change (units) with (lit "" :: tl units).
    simpl sizeof_fmt_loop. unfold abs_lt_1024. rewrite (Z.abs_eq n H0).
    change (1024 ^ (Z.of_nat 0 + 1)) with 1024 in Hhi.
    replace (n <? 1024) with true by (symmetry; now apply Z.ltb_lt).
    unfold fmt_0f, as_float, bind. rewrite (to_float_exact n (conj H0 H53)).
    unfold sign_of. cbv beta iota.
    replace (n <? 0) with false by (symmetry; apply Z.ltb_ge; lia).
    rewrite ?(Z.abs_eq n H0). reflexivity.
  - destruct Hlo as [Hlo|Hlo]; [discriminate|].
    change (units !! S k) with (tl units !! k) in Hu.
    change units with (lit "" :: tl units).
    generalize dependent (tl units). intros rest Hu.
    assert (Hsplit : rest = take k rest ++ u :: drop (S k) rest).
    { symmetry. now apply take_drop_middle. }
    assert (Hlen : length (take k rest) = k).
    { apply length_take_le. apply lookup_lt_Some in Hu. lia. }
    simpl sizeof_fmt_loop. unfold abs_lt_1024. rewrite (Z.abs_eq n H0).
    assert (H1024 : 1024 <= n).
    { eapply Z.le_trans; [|exact Hlo].
      change 1024 with (1024 ^ 1) at 1. apply Z.pow_le_mono_r; lia. }
    replace (n <? 1024) with false by (symmetry; now apply Z.ltb_ge).
    unfold div_1024, bind. rewrite (to_float_exact n (conj H0 H53)).
    rewrite Hsplit.
    rewrite (sizeof_fmt_loop_float (take k rest) u _ n H0 10).
    + rewrite Hlen.
      replace (10 * Z.of_nat (S k)) with (10 + 10 * Z.of_nat k) by lia.
      reflexivity.
    + lia.
    + intros _. rewrite Hlen.
      rewrite pow_1024 in Hlo by lia.
      replace (10 + 10 * (Z.of_nat k - 1)) with (10 * Z.of_nat k) by lia.
      change 1024 with (2 ^ 10). rewrite <- Z.pow_add_r by lia.
      replace (10 + 10 * Z.of_nat k) with (10 * Z.of_nat (S k)) by lia.
      exact Hlo.
    + rewrite Hlen. rewrite pow_1024 in Hhi by lia.
      change 1024 with (2 ^ 10). rewrite <- Z.pow_add_r by lia.
      replace (10 + (10 + 10 * Z.of_nat k)) with (10 * (Z.of_nat (S k) + 1)) by lia.
      exact Hhi.
Qed.

(** X6, witness: one byte short of a mebibyte is shown as 1024K. *)
Lemma hr_unit_witness :
  hr (1024 * 1024 - 1) = Ok (lit "1024K").
Proof.
  apply (hr_unit (1024 * 1024 - 1) 1 (lit "K")).
  - split; [lia|reflexivity].
  - reflexivity.
  - right. lia.
  - reflexivity.
Defined.

End FileSizeMore.

Section FileSizeRange.
Import FileSizeM.

Lemma sizeof_fmt_loop_float_ok (us : list str) (suffix : str) :
  forall m e, exists s, sizeof_fmt_loop us (PyFloat m e) suffix = Ok s.
Proof.
  induction us as [|u us IH]; intros m e; simpl.
  - eexists. reflexivity.
  - destruct (Z.abs m <? 1024 * 2 ^ e); [eexists; reflexivity|apply IH].
Qed.

(** What [float(n)] rounds to lies between the neighbouring powers of
    two of [n]. *)
Lemma to_float_rounding_bounds (n : Z) :
  0 < n ->
  let b := Z.log2 n + 1 in
  let sh := b - 53 in
  let q := n / 2 ^ sh in
  let rest := n mod 2 ^ sh in
  let half := 2 ^ (sh - 1) in
  let q' := if (half <? rest) || ((rest =? half) && Z.odd q) then q + 1 else q in
  53 < b ->
  2 ^ (b - 1) <= q' * 2 ^ sh <= 2 ^ b.
Proof.
  intros Hn b sh q rest half q' Hb.
  assert (Hsh : 0 < sh) by (unfold sh; lia).
  assert (HP : 0 < 2 ^ sh) by (apply Z.pow_pos_nonneg; lia).
  destruct (Z.log2_spec n Hn) as [Hlo Hhi].
  fold (Z.succ (Z.log2 n)) in b.
  assert (Eb : 2 ^ b = 2 ^ 53 * 2 ^ sh).
  { rewrite <- Z.pow_add_r by lia. f_equal. unfold sh. lia. }
  assert (Eb1 : 2 ^ (b - 1) = 2 ^ 52 * 2 ^ sh).
  { rewrite <- Z.pow_add_r by lia. f_equal. unfold sh. lia. }
  assert (Hq1 : 2 ^ 52 <= q).
  { apply Z.div_le_lower_bound; [exact HP|].
    rewrite Z.mul_comm, <- Eb1. unfold b.
    replace (Z.succ (Z.log2 n) - 1) with (Z.log2 n) by lia. exact Hlo. }
  assert (Hq2 : q < 2 ^ 53).
  { apply Z.div_lt_upper_bound; [exact HP|].
    rewrite Z.mul_comm, <- Eb. exact Hhi. }
  assert (Hq' : 2 ^ 52 <= q' <= 2 ^ 53).
  { unfold q'. destruct ((half <? rest) || ((rest =? half) && Z.odd q)); lia. }
  rewrite Eb, Eb1. split; apply Z.mul_le_mono_nonneg_r; lia.
Qed.

Lemma to_float_below_overflow (n : Z) :
  0 <= n < 2 ^ 1023 -> exists m, to_float n = Ok m.
Proof.
  intros [H0 Hn]. unfold to_float. rewrite (Z.abs_eq n H0).
  destruct (Z.eqb_spec n 0) as [->|Hne].
  - eexists. reflexivity.
  - assert (Hpos : 0 < n) by lia.
    assert (Hlog : Z.log2 n < 1023) by (apply Z.log2_lt_pow2; lia).
    destruct (Z.leb_spec (Z.log2 n + 1) 53) as [Hb|Hb].
    + replace (2 ^ 1024 <=? n) with false; [eexists; reflexivity|].
      symmetry. apply Z.leb_gt. eapply Z.lt_trans; [exact Hn|].
      apply Z.pow_lt_mono_r; lia.
    + pose proof (to_float_rounding_bounds n Hpos Hb) as [_ Hr].
      cbv zeta in Hr.
      match goal with
      | |- context [2 ^ 1024 <=? ?r] =>
          replace (2 ^ 1024 <=? r) with false; [eexists; reflexivity|]
      end.
      symmetry. apply Z.leb_gt. eapply Z.le_lt_trans; [exact Hr|].
      apply Z.pow_lt_mono_r; lia.
Qed.

Lemma to_float_overflow (n : Z) :
  2 ^ 1024 <= n -> to_float n = Raise OverflowError.
Proof.
  intros Hn. unfold to_float.
  assert (Hbig : 0 < 2 ^ 1024) by (apply Z.pow_pos_nonneg; lia).
  assert (Hpos : 0 < n) by lia.
  rewrite (Z.abs_eq n) by lia.
  replace (n =? 0) with false by (symmetry; apply Z.eqb_neq; lia).
  assert (Hlog : 1024 <= Z.log2 n) by (apply Z.log2_le_pow2; lia).
  replace (Z.log2 n + 1 <=? 53) with false by (symmetry; apply Z.leb_gt; lia).
  assert (Hb : 53 < Z.log2 n + 1) by lia.
  pose proof (to_float_rounding_bounds n Hpos Hb) as [Hr _].
  cbv zeta in Hr.
  match goal with
  | |- context [2 ^ 1024 <=? ?r] =>
      replace (2 ^ 1024 <=? r) with true; [reflexivity|]
  end.
  symmetry. apply Z.leb_le. eapply Z.le_trans; [|exact Hr].
  apply Z.pow_le_mono_r; lia.
Qed.

(** X7: [hr] returns a string for every size below [2^1023], negative
    sizes included, and raises [OverflowError] for every size from
    [2^1024] on, where [num /= 1024.0] cannot convert the size to a
    float. *)
Theorem hr_range (n : Z) :
  (n < 2 ^ 1023 -> exists s, hr n = Ok s) /\
  (2 ^ 1024 <= n -> hr n = Raise OverflowError).
Proof.
  unfold hr, sizeof_fmt. change units with (lit "" :: tl units).
  generalize (tl units). intros rest. split.
  - intros Hn. destruct (Z.leb_spec 0 n) as [H0|H0]; [|eexists; reflexivity].
    destruct (to_float_below_overflow n (conj H0 Hn)) as [m Hm].
    simpl sizeof_fmt_loop. unfold fmt_0f, div_1024, as_float, bind. rewrite Hm.
    destruct (Z.abs n <? 1024); [eexists; reflexivity|].
    apply sizeof_fmt_loop_float_ok.
  - intros Hn.
    assert (Hbig : 1024 < 2 ^ 1024).
    { change 1024 with (2 ^ 10) at 1. apply Z.pow_lt_mono_r; lia. }
    replace (0 <=? n) with true by (symmetry; apply Z.leb_le; lia).
    simpl sizeof_fmt_loop. unfold abs_lt_1024.
    replace (Z.abs n <? 1024) with false by (symmetry; apply Z.ltb_ge; lia).
    unfold div_1024, bind. now rewrite (to_float_overflow n Hn).
Qed.

(** X7, witness: a size of one tebibyte, and the size [2^1024]. *)
Lemma hr_range_witness :
  (exists s, hr (2 ^ 40) = Ok s) /\ hr (2 ^ 1024) = Raise OverflowError.
Proof.
  split.
  - apply (proj1 (hr_range (2 ^ 40))). reflexivity.
  - apply (proj2 (hr_range (2 ^ 1024))). reflexivity.
Defined.

End FileSizeRange.

(** * Further facts about [sparcur/cli.py] *)

Section BuildPathsMore.
Import Cli Props CliNotions.

Lemma flat_map_ext_Forall {A B} (f g : A -> list B) (l : list A) :
  Forall (fun x => f x = g x) l -> flat_map f l = flat_map g l.
Proof. induction 1 as [|x l Hx _ IH]; simpl; [reflexivity|]. now rewrite Hx, IH. Qed.

Lemma filter_flat_map {A B} (P : B -> bool) (f : A -> list B) (l : list A) :
  List.filter P (flat_map f l) = flat_map (fun x => List.filter P (f x)) l.
Proof.
  induction l as [|x l IH]; simpl; [reflexivity|].
  now rewrite List.filter_app, IH.
Qed.

Lemma no_file_id_children p : no_file_id p = true -> children p = [].
Proof. destruct p; [reflexivity|discriminate]. Qed.

Lemma no_file_id_rchildren p : no_file_id p = true -> rchildren p = [].
Proof. destruct p; [reflexivity|discriminate]. Qed.

(** With a depth limit, [inner] visits the paths of [walk_to] and keeps
    those that the flags select. *)
Lemma inner_path_bounded (o : Options) (stop : Z) :
  level o = Some stop ->
  forall p lvl,
    inner_path o lvl p =
      List.filter (selects o) (walk_to (Z.to_nat (stop - lvl + 1)) p).
Proof.
  intros Hl p.
  induction p as [n b s i|n cs IH] using Path_tree_ind; intros lvl.
  - simpl inner_path. rewrite Hl. unfold selects.
    destruct (Z.to_nat (stop - lvl + 1)) as [|d]; simpl;
      destruct (only_no_file_id o), (empty o); simpl;
      destruct (lvl <=? stop); try destruct (no_file_id _); reflexivity.
  - simpl inner_path. rewrite Hl.
    assert (Hs : selects o (Dir n cs) =
                 if only_no_file_id o then false
                 else if empty o then match cs with [] => true | _ => false end
                 else true).
    { unfold selects. simpl. destruct cs; reflexivity. }
    destruct (Z.leb_spec lvl stop) as [Hle|Hgt].
    + replace (Z.to_nat (stop - lvl + 1)) with (S (Z.to_nat (stop - (lvl + 1) + 1)))
        by lia.
      simpl walk_to. simpl List.filter. rewrite filter_flat_map.
      rewrite (flat_map_ext_Forall (inner_path o (lvl + 1))
                 (fun x => List.filter (selects o)
                             (walk_to (Z.to_nat (stop - (lvl + 1) + 1)) x)) cs).
      * rewrite Hs.
        destruct (only_no_file_id o); [reflexivity|].
        destruct (empty o); [|reflexivity].
        destruct cs; reflexivity.
      * eapply Forall_impl; [exact IH|]. intros c Hc. apply Hc.
    + replace (Z.to_nat (stop - lvl + 1)) with O by lia.
      simpl walk_to. simpl List.filter. rewrite Hs.
      destruct (only_no_file_id o); [reflexivity|].
      destruct (empty o); [|reflexivity].
      destruct cs; reflexivity.
Qed.

(** X8: with a depth limit [stop], [_build_paths] yields, in the order
    of the walk, exactly the paths at most [stop + 1] levels below the
    given ones that the flags select: broken links without a file id
    under [--only-no-file-id], else empty directories under [--empty],
    else every path. *)
Theorem build_paths_bounded (o : Options) (stop : Z) (paths : list Path) :
  level o = Some stop ->
  _build_paths o paths =
    List.filter (selects o) (flat_map (walk_to (reach stop)) paths).
Proof.
  intros Hl. unfold _build_paths, inner, reach. rewrite filter_flat_map.
  apply flat_map_ext_Forall, Forall_forall. intros p _.
  rewrite (inner_path_bounded o stop Hl p 0). do 2 f_equal. lia.
Qed.

(** X8, witness: [--empty --level=0] over an empty directory and a
    directory that holds a file and an empty directory. *)
Lemma build_paths_bounded_witness :
  _build_paths (empty_only (Some 0))
    [Dir "a" []; Dir "b" [File "f" false (Some 1) (Some "id"); Dir "c" []]]
  = [Dir "a" []; Dir "c" []].
Proof.
  rewrite (build_paths_bounded (empty_only (Some 0)) 0); reflexivity.
Defined.

(** X9: under [--only-no-file-id] every yielded path is a broken link
    whose cached metadata has no file id, at any [--level] and whether
    or not [--empty] is given; without [--level], these are all such
    links among the given paths and everything below them. *)
Theorem build_paths_only_no_file_id (o : Options) (paths : list Path) :
  only_no_file_id o = true ->
  Forall (fun p => is_broken_symlink p = true /\ meta_file_id p = None)
    (_build_paths o paths) /\
  (level o = None ->
   _build_paths o paths = List.filter no_file_id (flat_map walk paths)).
Proof.
  intros Hn.
  assert (Hsel : forall p, selects o p = no_file_id p).
  { intros p. unfold selects. now rewrite Hn. }
  assert (Hall : forall l, Forall (fun p => is_broken_symlink p = true /\ meta_file_id p = None)
                             (List.filter no_file_id l)).
  { intros l. apply Forall_forall. intros p Hp.
    apply list_elem_of_In, List.filter_In in Hp as [_ Hp].
    unfold no_file_id in Hp. apply andb_true_iff in Hp as [Hb Hi].
    split; [exact Hb|]. now apply bool_decide_eq_true in Hi. }
  assert (Hunb : level o = None ->
                 _build_paths o paths = List.filter no_file_id (flat_map walk paths)).
  { intros Hl. unfold _build_paths, inner. rewrite filter_flat_map.
    apply flat_map_ext_Forall, Forall_forall. intros p _.
    unfold walk. simpl List.filter.
    destruct p as [n b s i|n cs]; simpl; rewrite Hn, Hl.
    - destruct (no_file_id (File n b s i)); reflexivity.
    - reflexivity. }
  split; [|exact Hunb].
  destruct (level o) as [stop|] eqn:Hl.
  - unfold _build_paths, inner. apply Forall_flat_map, Forall_forall. intros p _.
    rewrite (inner_path_bounded o stop Hl p 0).
    erewrite List.filter_ext; [apply Hall|]. exact Hsel.
  - rewrite (Hunb eq_refl). apply Hall.
Qed.

(** X9, witness: a broken link without a file id next to a fetched
    file, with [--only-no-file-id] and no [--level]. *)
Lemma build_paths_only_no_file_id_witness :
  _build_paths (only_missing_id None)
    [Dir "d" [File "f" true (Some 1) None; File "g" false (Some 1) (Some "id")]]
  = [File "f" true (Some 1) None].
Proof.
  rewrite (proj2 (build_paths_only_no_file_id (only_missing_id None)
                    [Dir "d" [File "f" true (Some 1) None;
                              File "g" false (Some 1) (Some "id")]]
                    eq_refl) eq_refl).
  reflexivity.
Defined.

Lemma height_children (cs : list Path) :
  Forall (fun c => (S (height c) <= fold_right (fun c h => Nat.max (S (height c)) h) O cs)%nat) cs.
Proof.
  induction cs as [|c cs IH]; [constructor|]. simpl. constructor; [lia|].
  eapply Forall_impl; [exact IH|]. intros x Hx. simpl in Hx. lia.
Qed.

Lemma rchildren_walk (n : string) (cs : list Path) :
  rchildren (Dir n cs) = flat_map walk cs.
Proof. reflexivity. Qed.

Lemma walk_to_height (p : Path) :
  forall d, (height p <= d)%nat -> walk_to d p = walk p.
Proof.
  induction p as [n b s i|n cs IH] using Path_tree_ind; intros d Hd.
  - destruct d; reflexivity.
  - unfold walk. rewrite rchildren_walk.
    pose proof (height_children cs) as Hcs. simpl in Hd.
    destruct d as [|d].
    + destruct cs as [|c cs]; [reflexivity|].
      inversion Hcs; subst. lia.
    + simpl walk_to. f_equal. apply flat_map_ext_Forall.
      rewrite Forall_forall in IH, Hcs. apply Forall_forall. intros c Hc.
      apply IH; [exact Hc|]. specialize (Hcs c Hc). lia.
Qed.

(** X10: when the depth limit reaches the leaves of the given trees,
    [_build_paths] yields every path that the flags select among the
    given paths and everything below them. *)
Theorem build_paths_level_reaches_leaves (o : Options) (stop : Z) (paths : list Path) :
  level o = Some stop ->
  Forall (fun p => (height p <= reach stop)%nat) paths ->
  _build_paths o paths = List.filter (selects o) (flat_map walk paths).
Proof.
  intros Hl Hh. unfold _build_paths, inner. rewrite filter_flat_map.
  apply flat_map_ext_Forall.
  eapply Forall_impl; [exact Hh|]. intros p Hp.
  rewrite (inner_path_bounded o stop Hl p 0).
  replace (Z.to_nat (stop - 0 + 1)) with (reach stop) by (unfold reach; lia).
  now rewrite (walk_to_height p _ Hp).
Qed.

(** X10, witness: [--empty --level=1] over a tree of height two. *)
Lemma build_paths_level_reaches_leaves_witness :
  _build_paths (empty_only (Some 1))
    [Dir "b" [File "f" false (Some 1) (Some "id"); Dir "c" [Dir "e" []]]]
  = [Dir "e" []].
Proof.
  rewrite (build_paths_level_reaches_leaves (empty_only (Some 1)) 1).
  - reflexivity.
  - reflexivity.
  - repeat constructor.
Defined.

(** X11: with a negative [--level], [_build_paths] never descends: it
    yields the given paths that the flags select and nothing else. *)
Theorem build_paths_negative_level (o : Options) (stop : Z) (paths : list Path) :
  level o = Some stop -> stop < 0 ->
  _build_paths o paths = List.filter (selects o) paths.
Proof.
  intros Hl Hneg. unfold _build_paths, inner.
  induction paths as [|p paths IH]; [reflexivity|]. simpl.
  rewrite IH, (inner_path_bounded o stop Hl p 0).
  replace (Z.to_nat (stop - 0 + 1)) with O by lia. simpl.
  destruct (selects o p); reflexivity.
Qed.

(** X11, witness: [--level=-1] without other flags. *)
Lemma build_paths_negative_level_witness :
  _build_paths (limit_level (-1)) [Dir "b" [Dir "c" []]] = [Dir "b" [Dir "c" []]].
Proof.
  rewrite (build_paths_negative_level (limit_level (-1)) (-1)).
  - reflexivity.
  - reflexivity.
  - lia.
Defined.

End BuildPathsMore.

Section FindMore.
Import Cli Props CliNotions.

Lemma limit_filter_exists (lim : Z) (paths : list Match) :
  limit_filter true lim paths = (paths, []).
Proof.
  induction paths as [|p paths IH]; [reflexivity|]. simpl. rewrite IH.
  unfold keep. destruct (cached_size p); reflexivity.
Qed.

(** X12: [find] keeps every match and logs nothing when the size limit
    is switched off, which a negative [--limit] and also [--limit=0]
    do, or when [--exists] is given. *)
Theorem find_paths_unfiltered (o : Options) (paths : list Match) :
  arg_limit o <= 0 \/ exists_flag o = true ->
  find_paths o paths = (paths, []).
Proof.
  intros H. unfold find_paths, limit.
  destruct (Z.leb_spec 0 (arg_limit o)) as [Hle|Hlt]; [|reflexivity].
  destruct (Z.eqb_spec (arg_limit o) 0) as [_|Hne]; [reflexivity|].
  destruct H as [H|H]; [lia|]. rewrite H. apply limit_filter_exists.
Qed.

(** X12, witness: [--limit=0] over a complete and a truncated copy. *)
Lemma find_paths_unfiltered_witness :
  find_paths (limit_only 0) [complete_copy; truncated_copy]
  = ([complete_copy; truncated_copy], []).
Proof.
  apply (find_paths_unfiltered (limit_only 0)). left. simpl. lia.
Defined.

End FindMore.

Section ReportSizeMore.
Import Cli Props CliNotions.

(** The loop over the descendants adds, to whatever was accumulated,
    the counts and sums of the entries it sees. *)
Lemma fold_size_step (l : list Path) : forall a,
  let r := fold_left size_step l a in
  tf r = tf a + number_of sized l /\
  ff r = ff a + number_of (fun p => sized p && is_broken_symlink p) l /\
  td r = td a + number_of is_dir l /\
  total r = total a + sum_sizes (List.filter sized l) /\
  outstanding r =
    outstanding a
    + sum_sizes (List.filter (fun p => sized p && is_broken_symlink p) l) /\
  uncertain r = uncertain a || existsb unsized l.
Proof.
  unfold number_of. induction l as [|p l IH]; intros a.
  - simpl. rewrite orb_false_r. repeat split; lia.
  - cbv zeta. simpl fold_left.
    destruct (IH (size_step a p)) as (H1 & H2 & H3 & H4 & H5 & H6).
    cbv zeta in *. rewrite H1, H2, H3, H4, H5, H6. clear.
    destruct p as [n b [s|] i|n cs];
      unfold size_step, sized, unsized, size_of; simpl;
      try destruct b; simpl;
      try (destruct (Z.eqb_spec s 0) as [->|Hs]); simpl;
      repeat split; unfold size_of; simpl;
      first [ lia
            | reflexivity
            | destruct (uncertain a); reflexivity ].
Qed.

(** X13: the row that [report size] computes for a directory counts
    the files below it that have a known cached size, the broken links
    among them and the directories; it sums the sizes of these files
    and of these links; and it is marked uncertain exactly when some
    file below has no cached size. *)
Theorem size_row_counts (path : Path) :
  let below := rchildren path in
  let r := size_row path in
  r_tf r = number_of sized below /\
  r_ff r = number_of (fun p => sized p && is_broken_symlink p) below /\
  r_lf r = number_of sized below
           - number_of (fun p => sized p && is_broken_symlink p) below /\
  r_td r = number_of is_dir below /\
  r_total r = sum_sizes (List.filter sized below) /\
  r_outstanding r =
    sum_sizes (List.filter (fun p => sized p && is_broken_symlink p) below) /\
  r_local r = r_total r - r_outstanding r /\
  r_uncertain r = existsb unsized below.
Proof.
  cbv zeta. unfold size_row.
  destruct (fold_size_step (rchildren path)
              {| outstanding := 0; total := 0; tf := 0; ff := 0; td := 0;
                 uncertain := false |}) as (H1 & H2 & H3 & H4 & H5 & H6).
  cbv zeta in *. simpl in *.
  repeat split; try assumption; try reflexivity. now rewrite H1, H2.
Qed.

Lemma sum_sizes_nonneg (l : list Path) :
  Forall (fun p => 0 <= size_of p) l -> 0 <= sum_sizes l.
Proof. induction 1 as [|p l Hp _ IH]; simpl; lia. Qed.

Lemma sum_sizes_filter_le (f g : Path -> bool) (l : list Path) :
  Forall (fun p => 0 <= size_of p) l ->
  (forall p, f p = true -> g p = true) ->
  sum_sizes (List.filter f l) <= sum_sizes (List.filter g l).
Proof.
  intros Hl Hfg. induction Hl as [|p l Hp _ IH]; simpl; [lia|].
  destruct (f p) eqn:Hf.
  - rewrite (Hfg p Hf). simpl. lia.
  - destruct (g p); simpl; lia.
Qed.

Lemma count_filter_le (f g : Path -> bool) (l : list Path) :
  (forall p, f p = true -> g p = true) -> number_of f l <= number_of g l.
Proof.
  intros Hfg. unfold number_of. induction l as [|p l IH]; simpl; [lia|].
  destruct (f p) eqn:Hf.
  - rewrite (Hfg p Hf). simpl length. lia.
  - destruct (g p); simpl length; lia.
Qed.

(** X14: when no cached size below a directory is negative, the bytes
    still to retrieve lie between zero and the total, the local bytes
    are not negative, and the count of files to retrieve lies between
    zero and the count of all files. *)
Theorem size_row_bounds (path : Path) :
  Forall (fun p => 0 <= size_of p) (rchildren path) ->
  let r := size_row path in
  0 <= r_outstanding r <= r_total r /\
  0 <= r_local r /\
  0 <= r_ff r <= r_tf r /\
  0 <= r_lf r.
Proof.
  intros Hs. cbv zeta. unfold size_row.
  destruct (fold_size_step (rchildren path)
              {| outstanding := 0; total := 0; tf := 0; ff := 0; td := 0;
                 uncertain := false |}) as (H1 & H2 & H3 & H4 & H5 & H6).
  cbv zeta in *. simpl in *. rewrite H1, H2, H4, H5.
  assert (Hsub : forall p, sized p && is_broken_symlink p = true -> sized p = true).
  { intros p Hp. now apply andb_true_iff in Hp as [Hp _]. }
  pose proof (sum_sizes_filter_le _ _ _ Hs Hsub) as Hle.
  pose proof (count_filter_le _ _ (rchildren path) Hsub) as Hc.
  assert (H0 : 0 <= sum_sizes
                      (List.filter (fun p => sized p && is_broken_symlink p)
                         (rchildren path))).
  { apply sum_sizes_nonneg. apply Forall_forall. intros p Hp.
    rewrite Forall_forall in Hs. apply Hs.
    apply list_elem_of_In in Hp. apply List.filter_In in Hp as [Hp _].
    now apply list_elem_of_In. }
  assert (Hc0 : 0 <= number_of (fun p => sized p && is_broken_symlink p) (rchildren path)).
  { unfold number_of. lia. }
  lia.
Qed.

(** X14, witness: the directory with two files and one broken link. *)
Lemma size_row_bounds_witness :
  0 <= r_outstanding (size_row scenario_dir) <= r_total (size_row scenario_dir) /\
  0 <= r_local (size_row scenario_dir) /\
  0 <= r_ff (size_row scenario_dir) <= r_tf (size_row scenario_dir) /\
  0 <= r_lf (size_row scenario_dir).
Proof.
  apply (size_row_bounds scenario_dir).
  repeat constructor; discriminate.
Defined.

End ReportSizeMore.

Section SortedStable.
Import Cli Props CliNotions.

Lemma key_eqb_lt (a b k : bool * Z) :
  key_eqb a k = true -> key_lt b a = true -> key_eqb b k = false.
Proof.
  unfold key_eqb, key_lt. destruct a as [ba za], b as [bb zb], k as [bk zk]. simpl.
  rewrite andb_true_iff, Z.eqb_eq. intros [Hb Hz].
  apply Bool.eqb_prop in Hb. subst bk zk.
  destruct bb, ba; simpl; try discriminate; try reflexivity;
    rewrite Z.ltb_lt; intros H; apply Z.eqb_neq; lia.
Qed.

Lemma insert_sorted_filter {A} (key : A -> bool * Z) (k : bool * Z) (x : A) (l : list A) :
  List.filter (fun y => key_eqb (key y) k) (insert_sorted key x l) =
    if key_eqb (key x) k
    then x :: List.filter (fun y => key_eqb (key y) k) l
    else List.filter (fun y => key_eqb (key y) k) l.
Proof.
  induction l as [|y l IH]; simpl.
  - destruct (key_eqb (key x) k); reflexivity.
  - destruct (key_lt (key y) (key x)) eqn:Hlt; simpl.
    + rewrite IH. destruct (key_eqb (key x) k) eqn:Hx.
      * now rewrite (key_eqb_lt _ _ _ Hx Hlt).
      * reflexivity.
    + destruct (key_eqb (key x) k); reflexivity.
Qed.

Lemma sorted_filter {A} (key : A -> bool * Z) (k : bool * Z) (l : list A) :
  List.filter (fun y => key_eqb (key y) k) (sorted key l) =
    List.filter (fun y => key_eqb (key y) k) l.
Proof.
  induction l as [|x l IH]; [reflexivity|]. simpl.
  rewrite insert_sorted_filter, IH. destruct (key_eqb (key x) k); reflexivity.
Qed.

(** X15: the sort of [report size] is stable: the rows that share an
    uncertain flag and a total come out in the order in which their
    directories were given. *)
Theorem size_sorted_stable (dirs : list Path) (uncertain_flag : bool) (total_bytes : Z) :
  List.filter (fun r => Bool.eqb (r_uncertain r) uncertain_flag && (r_total r =? total_bytes))
    (size_sorted dirs) =
  List.filter (fun r => Bool.eqb (r_uncertain r) uncertain_flag && (r_total r =? total_bytes))
    (size_data dirs).
Proof.
  unfold size_sorted.
  assert (Hext : forall r,
             Bool.eqb (r_uncertain r) uncertain_flag && (r_total r =? total_bytes)
             = key_eqb (sort_key r) (uncertain_flag, - total_bytes)).
  { intros r. unfold key_eqb, sort_key. simpl. f_equal.
    destruct (Z.eqb_spec (r_total r) total_bytes),
             (Z.eqb_spec (- r_total r) (- total_bytes)); try reflexivity; lia. }
  rewrite (List.filter_ext _ _ Hext (sorted sort_key (size_data dirs))).
  rewrite (List.filter_ext _ _ Hext (size_data dirs)).
  apply sorted_filter.
Qed.

End SortedStable.

(** * Further facts about the commands of [sparcur/cli.py] *)

Section ExportMore.
Import Proc Main Props ProcNotions.
Local Open Scope proc_scope.

Lemma keeps_ret {A} (p : loc) (a : A) : keeps p (ret a).
Proof. intros w out w' _ H. now inversion H. Qed.

Lemma keeps_bind {A B} (p : loc) (m : M A) (k : A -> M B) :
  keeps p m -> (forall a, keeps p (k a)) -> keeps p (bindM m k).
Proof.
  intros Hm Hk w out w' Hp H. unfold bindM in H.
  destruct (m w) as [r w1] eqn:E. specialize (Hm w r w1 Hp E).
  destruct r as [a|c|x]; try (inversion H; subst; exact Hm).
  rewrite <- Hm. apply (Hk a w1 out w'); [|exact H]. now rewrite Hm.
Qed.

Lemma keeps_for_each {A} (p : loc) (xs : list A) (body : A -> M unit) :
  (forall x, keeps p (body x)) -> keeps p (for_each xs body).
Proof.
  intros Hb. induction xs as [|x xs IH]; simpl.
  - apply keeps_ret.
  - apply keeps_bind; [apply Hb|intros _; exact IH].
Qed.

Lemma keeps_emit (p : loc) ev : keeps p (emit ev).
Proof. intros w out w' _ H. now inversion H. Qed.

Lemma keeps_write (p out : loc) content : out <> p -> keeps p (write_file out content).
Proof.
  intros Hne w r w' _ H. inversion H; subst. simpl. now apply lookup_insert_ne.
Qed.

Lemma keeps_mkdir (p q : loc) : keeps p (mkdir q).
Proof.
  intros w r w' Hp H. unfold mkdir in H.
  destruct (fs w !! q) eqn:E; inversion H; subst; [reflexivity|]. simpl.
  apply lookup_insert_ne. intros ->. rewrite E in Hp. now destruct Hp.
Qed.

Lemma child_longer (base : loc) (a b c : string) :
  child (child base a) b <> child base c.
Proof.
  unfold child. intros E. apply (f_equal (@length _)) in E.
  rewrite !length_app in E. simpl in E. lia.
Qed.

Lemma child3_longer (base : loc) (a b c d : string) :
  child (child (child base a) b) c <> child base d.
Proof.
  unfold child. intros E. apply (f_equal (@length _)) in E.
  rewrite !length_app in E. simpl in E. lia.
Qed.

Lemma child5_longer (base : loc) (a b c d f g : string) :
  child (child (child (child (child base a) b) c) d) f <> child base g.
Proof.
  unfold child. intros E. apply (f_equal (@length _)) in E.
  rewrite !length_app in E. simpl in E. lia.
Qed.

(** The writes of either export leave [LATEST] alone. *)
Lemma keeps_dataset_content (o : Cli.Options) (e : ExportEnv) :
  keeps (LATEST e)
    (for_each
       ((if Cli.json o then [(ft_data e, ".json")] else []) ++
        (if Cli.ttl o then [(ft_ttl e, ".ttl")] else []))
       (fun '(content, suffix) =>
          let out := with_suffix
                       (child (child (child (child (export_base e) "datasets")
                                        (ft_id e)) (timestamp e))
                          "curation-export") suffix in
          write_file out content;;
          print ("dataset graph exported to " ++ show out))).
Proof.
  apply keeps_for_each. intros [content suffix].
  apply keeps_bind; [|intros _; apply keeps_emit].
  apply keeps_write. rewrite with_suffix_child. unfold LATEST.
  fold (export_base e). unfold child. intros E.
  apply (f_equal (@length _)) in E. rewrite !length_app in E. simpl in E. lia.
Qed.

Lemma keeps_project_content (o : Cli.Options) (e : ExportEnv) :
  keeps (LATEST e)
    (let filepath := child (child (export_base e) (timestamp e)) "curation-export" in
     for_each (summary_xml e) (fun '(xml_name, xml) =>
       write_file (with_suffix filepath ("." ++ xml_name ++ ".xml")) xml);;
     write_file (with_suffix filepath ".json") (summary_data e);;
     write_file (with_suffix filepath ".ttl") (summary_ttl e);;
     for_each (summary_disco e) (fun '(table_name, tabular) =>
       write_file (with_suffix filepath ("." ++ table_name ++ ".tsv")) tabular);;
     if Cli.datasets o then
       let dataset_dump_path := child (child (export_base e) (timestamp e)) "datasets" in
       mkdir dataset_dump_path;;
       for_each (summary_iter e) (fun '(d_id, d_ttl) =>
         let out := with_suffix (child dataset_dump_path d_id) ".ttl" in
         write_file out d_ttl;;
         print ("dataset graph exported to " ++ show out))
     else if Cli.debug o then emit EvEmbed
     else ret tt).
Proof.
  cbv zeta. unfold LATEST. fold (export_base e).
  assert (Hw : forall name content,
             keeps (child (export_base e) "LATEST")
               (write_file (with_suffix (child (child (export_base e) (timestamp e))
                                           "curation-export") name) content)).
  { intros name content. apply keeps_write. rewrite with_suffix_child.
    apply child_longer. }
  apply keeps_bind; [apply keeps_for_each; intros [n x]; apply Hw|]. intros _.
  apply keeps_bind; [apply Hw|]. intros _.
  apply keeps_bind; [apply Hw|]. intros _.
  apply keeps_bind; [apply keeps_for_each; intros [n x]; apply Hw|]. intros _.
  destruct (Cli.datasets o).
  - apply keeps_bind; [apply keeps_mkdir|]. intros _.
    apply keeps_for_each. intros [n x].
    apply keeps_bind; [|intros _; apply keeps_emit].
    apply keeps_write. rewrite with_suffix_child. apply child3_longer.
  - destruct (Cli.debug o); [apply keeps_emit|apply keeps_ret].
Qed.



(** After a new snapshot directory was made, [LATEST] is a link to it. *)
Lemma new_snapshot_links dump latest w w' :
  fs w !! dump = None ->
  new_snapshot dump latest w = (Val tt, w') ->
  fs w' !! latest = Some (FSymlink dump).
Proof.
  intros Hnew H. unfold new_snapshot, bindM, path_exists, mkdir_parents in H.
  rewrite Hnew in H. simpl in H.
  unfold is_symlink, unlink, symlink_to, raise, ret in H. simpl in H.
  repeat match type of H with
         | context [match ?x with _ => _ end] =>
             lazymatch x with
             | context [match _ with _ => _ end] => fail
             | _ => destruct x eqn:?
             end; simpl in H; try discriminate
         end.
  all: inversion H; subst; simpl; apply lookup_insert_eq.
Qed.

(** X16: after a successful export that created its snapshot
    directory, in either mode and whatever was written, [LATEST] is a
    symbolic link to that directory. *)
Theorem export_leaves_latest_linked (o : Cli.Options) (e : ExportEnv) (w w' : world) :
  export o e w = (Val tt, w') ->
  fs w !! snapshot_dir o e = None ->
  fs w' !! LATEST e = Some (FSymlink (snapshot_dir o e)).
Proof.
  intros H Hnew. unfold export in H. unfold snapshot_dir in *.
  fold (single_dataset_mode o e) in H.
  destruct (single_dataset_mode o e).
  - destruct (truthy (cwd_cache_is_dataset e)); simpl in H; [|discriminate].
    unfold export_dataset in H.
    apply bindM_val in H as ([] & w1 & H1 & H2).
    pose proof (new_snapshot_links _ _ _ _ Hnew H1) as Hl.
    rewrite <- Hl. apply (keeps_dataset_content o e w1 (Val tt) w'); [|exact H2].
    rewrite Hl. eauto.
  - unfold export_project in H.
    apply bindM_val in H as ([] & w1 & H1 & H2).
    pose proof (new_snapshot_links _ _ _ _ Hnew H1) as Hl.
    rewrite <- Hl. apply (keeps_project_content o e w1 (Val tt) w'); [|exact H2].
    rewrite Hl. eauto.
Qed.

(** X16, witness: a second project-wide export moves [LATEST] from the
    first snapshot to the new one. *)
Lemma export_leaves_latest_linked_witness :
  fs exported_world !! LATEST (export_env sparc (Method false)) =
    Some (FSymlink ["home"; "curation"; "export"; "N:organization:1";
                    "2019-05-31T09:30:00,000001"]) /\
  fs (snd (export (format_flags false false) (export_env sparc (Method false))
             exported_world))
    !! LATEST (export_env sparc (Method false)) =
    Some (FSymlink ["home"; "curation"; "export"; "N:organization:1";
                    "2019-06-01T12:00:00,000001"]).
Proof.
  split; [vm_compute; reflexivity|].
  apply (export_leaves_latest_linked (format_flags false false)
           (export_env sparc (Method false)) exported_world).
  - vm_compute. reflexivity.
  - vm_compute. reflexivity.
Defined.

End ExportMore.

Section ExportEdges.
Import Proc Main Props ProcNotions CommandNotions.
Local Open Scope proc_scope.


Lemma bindM_step {A B} (m : M A) (k : A -> M B) w a w1 :
  m w = (Val a, w1) -> bindM m k w = k a w1.
Proof. unfold bindM. now intros ->. Qed.





Lemma new_snapshot_existing (dump latest : loc) (w : world) :
  fst (path_exists dump w) = Val true ->
  new_snapshot dump latest w = (Val tt, w).
Proof.
  intros H. unfold new_snapshot, bindM. unfold path_exists in *. simpl in H.
  injection H as H. now rewrite H.
Qed.






Lemma untouched_ret {A} (p : loc) (a : A) : untouched p (ret a).
Proof. intros w out w' H. now inversion H. Qed.

Lemma untouched_bind {A B} (p : loc) (m : M A) (k : A -> M B) :
  untouched p m -> (forall a, untouched p (k a)) -> untouched p (bindM m k).
Proof.
  intros Hm Hk w out w' H. unfold bindM in H.
  destruct (m w) as [r w1] eqn:E. specialize (Hm w r w1 E).
  destruct r as [a|c|x]; try (inversion H; subst; exact Hm).
  rewrite <- Hm. apply (Hk a w1 out w' H).
Qed.

Lemma untouched_for_each {A} (p : loc) (xs : list A) (body : A -> M unit) :
  (forall x, untouched p (body x)) -> untouched p (for_each xs body).
Proof.
  intros Hb. induction xs as [|x xs IH]; simpl.
  - apply untouched_ret.
  - apply untouched_bind; [apply Hb|intros _; exact IH].
Qed.

Lemma untouched_emit (p : loc) ev : untouched p (emit ev).
Proof. intros w out w' H. now inversion H. Qed.

Lemma untouched_write (p out : loc) content :
  out <> p -> untouched p (write_file out content).
Proof.
  intros Hne w r w' H. inversion H; subst. simpl. now apply lookup_insert_ne.
Qed.

Lemma untouched_mkdir (p q : loc) : q <> p -> untouched p (mkdir q).
Proof.
  intros Hne w r w' H. unfold mkdir in H.
  destruct (fs w !! q) eqn:E; inversion H; subst; [reflexivity|]. simpl.
  now apply lookup_insert_ne.
Qed.

Lemma quiet_write dump out content : quiet dump (EvWrite out content).
Proof. split; [exact I|discriminate]. Qed.

Lemma quiet_print dump message : quiet dump (EvPrint message).
Proof. split; [exact I|discriminate]. Qed.

(** The writes of a single-dataset export, lines 516-540. *)
Lemma dataset_content_quiet (o : Cli.Options) (e : ExportEnv) :
  let m :=
    for_each
      ((if Cli.json o then [(ft_data e, ".json")] else []) ++
       (if Cli.ttl o then [(ft_ttl e, ".ttl")] else []))
      (fun '(content, suffix) =>
         let out := with_suffix
                      (child (child (child (child (export_base e) "datasets")
                                       (ft_id e)) (timestamp e))
                         "curation-export") suffix in
         write_file out content;;
         print ("dataset graph exported to " ++ show out)) in
  untouched (LATEST e) m /\
  emits_only (quiet (child (child (child (export_base e) "datasets")
                              (ft_id e)) (timestamp e))) m.
Proof.
  cbv zeta. split.
  - apply untouched_for_each. intros [content suffix].
    apply untouched_bind; [|intros _; apply untouched_emit].
    apply untouched_write. rewrite with_suffix_child. unfold LATEST.
    fold (export_base e). unfold child. intros E.
    apply (f_equal (@length _)) in E. rewrite !length_app in E. simpl in E. lia.
  - apply emits_for_each. intros [content suffix].
    apply emits_bind; [apply emits_write, quiet_write|].
    intros _. apply emits_emit, quiet_print.
Qed.

(** The writes of a project-wide export, lines 560-595. *)
Lemma project_content_quiet (o : Cli.Options) (e : ExportEnv) :
  let m :=
    (let filepath := child (child (export_base e) (timestamp e)) "curation-export" in
     for_each (summary_xml e) (fun '(xml_name, xml) =>
       write_file (with_suffix filepath ("." ++ xml_name ++ ".xml")) xml);;
     write_file (with_suffix filepath ".json") (summary_data e);;
     write_file (with_suffix filepath ".ttl") (summary_ttl e);;
     for_each (summary_disco e) (fun '(table_name, tabular) =>
       write_file (with_suffix filepath ("." ++ table_name ++ ".tsv")) tabular);;
     if Cli.datasets o then
       let dataset_dump_path := child (child (export_base e) (timestamp e)) "datasets" in
       mkdir dataset_dump_path;;
       for_each (summary_iter e) (fun '(d_id, d_ttl) =>
         let out := with_suffix (child dataset_dump_path d_id) ".ttl" in
         write_file out d_ttl;;
         print ("dataset graph exported to " ++ show out))
     else if Cli.debug o then emit EvEmbed
     else ret tt) in
  untouched (LATEST e) m /\
  emits_only (quiet (child (export_base e) (timestamp e))) m.
Proof.
  cbv zeta. unfold LATEST. fold (export_base e). split.
  - assert (Hw : forall name content,
               untouched (child (export_base e) "LATEST")
                 (write_file (with_suffix (child (child (export_base e) (timestamp e))
                                             "curation-export") name) content)).
    { intros name content. apply untouched_write. rewrite with_suffix_child.
      apply child_longer. }
    apply untouched_bind; [apply untouched_for_each; intros [n x]; apply Hw|]. intros _.
    apply untouched_bind; [apply Hw|]. intros _.
    apply untouched_bind; [apply Hw|]. intros _.
    apply untouched_bind; [apply untouched_for_each; intros [n x]; apply Hw|]. intros _.
    destruct (Cli.datasets o).
    + apply untouched_bind; [apply untouched_mkdir, child_longer|]. intros _.
      apply untouched_for_each. intros [n x].
      apply untouched_bind; [|intros _; apply untouched_emit].
      apply untouched_write. rewrite with_suffix_child. apply child3_longer.
    + destruct (Cli.debug o); [apply untouched_emit|apply untouched_ret].
  - apply emits_bind;
      [apply emits_for_each; intros [n x]; apply emits_write, quiet_write|]. intros _.
    apply emits_bind; [apply emits_write, quiet_write|]. intros _.
    apply emits_bind; [apply emits_write, quiet_write|]. intros _.
    apply emits_bind;
      [apply emits_for_each; intros [n x]; apply emits_write, quiet_write|]. intros _.
    destruct (Cli.datasets o).
    + apply emits_bind.
      * apply emits_mkdir. split; [exact I|]. intros E. injection E as E.
        unfold child in E. apply (f_equal (@length _)) in E.
        rewrite !length_app in E. simpl in E. lia.
      * intros _. apply emits_for_each. intros [n x].
        apply emits_bind; [apply emits_write, quiet_write|].
        intros _. apply emits_emit, quiet_print.
    + destruct (Cli.debug o); [apply emits_emit|apply emits_ret].
      split; [exact I|discriminate].
Qed.

(** X19: an export into a snapshot directory that is already there
    leaves [LATEST] as it is, whatever it is and however the export
    ends: it makes no directory for the snapshot and neither removes
    nor makes a link. *)
Theorem export_existing_snapshot (o : Cli.Options) (e : ExportEnv) (w w' : world)
    (out : outcome unit) :
  fst (path_exists (snapshot_dir o e) w) = Val true ->
  export o e w = (out, w') ->
  fs w' !! LATEST e = fs w !! LATEST e /\
  exists evs,
    trace w' = trace w ++ evs /\
    Forall content_event evs /\
    ~ In (EvMkdir (snapshot_dir o e)) evs.
Proof.
  intros Hthere H.
  assert (Hq : fs w' !! LATEST e = fs w !! LATEST e /\
               exists evs, trace w' = trace w ++ evs /\
                           Forall (quiet (snapshot_dir o e)) evs).
  { unfold export in H. unfold snapshot_dir in *.
    fold (single_dataset_mode o e) in H.
    destruct (single_dataset_mode o e).
    - destruct (truthy (cwd_cache_is_dataset e)); simpl in H.
      + unfold export_dataset in H.
        rewrite (bindM_step _ _ _ _ _ (new_snapshot_existing _ (LATEST e) _ Hthere)) in H.
        destruct (dataset_content_quiet o e) as [Hu He]. cbv zeta in Hu, He.
        split; [exact (Hu _ _ _ H)|exact (He _ _ _ H)].
      + inversion H; subst. split; [reflexivity|].
        eexists. split; [reflexivity|].
        constructor; [apply quiet_print|constructor].
    - unfold export_project in H.
      rewrite (bindM_step _ _ _ _ _ (new_snapshot_existing _ (LATEST e) _ Hthere)) in H.
      destruct (project_content_quiet o e) as [Hu He]. cbv zeta in Hu, He.
      split; [exact (Hu _ _ _ H)|exact (He _ _ _ H)]. }
  destruct Hq as [Hl (evs & Ht & Hq)]. split; [exact Hl|].
  exists evs. split; [exact Ht|]. split.
  - eapply Forall_impl; [exact Hq|]. now intros ev [Hc _].
  - intros Hin. rewrite Forall_forall in Hq.
    apply list_elem_of_In in Hin. now destruct (Hq _ Hin) as [_ Hne].
Qed.

(** X19, witness: a second project-wide export with the time stamp of
    the first. *)
Lemma export_existing_snapshot_witness :
  fs (snd (export (format_flags false false)
             (export_env sparc (Method false))
             (snd (export (format_flags false false)
                     (export_env sparc (Method false)) project_world))))
    !! LATEST (export_env sparc (Method false)) =
  fs (snd (export (format_flags false false)
             (export_env sparc (Method false)) project_world))
    !! LATEST (export_env sparc (Method false)) /\
  exists evs,
    trace (snd (export (format_flags false false)
                  (export_env sparc (Method false))
                  (snd (export (format_flags false false)
                          (export_env sparc (Method false)) project_world)))) =
      trace (snd (export (format_flags false false)
                    (export_env sparc (Method false)) project_world)) ++ evs /\
    Forall content_event evs /\
    ~ In (EvMkdir (snapshot_dir (format_flags false false)
                     (export_env sparc (Method false)))) evs.
Proof.
  apply (export_existing_snapshot (format_flags false false)
           (export_env sparc (Method false))
           (snd (export (format_flags false false)
                   (export_env sparc (Method false)) project_world))
           _
           (fst (export (format_flags false false)
                   (export_env sparc (Method false))
                   (snd (export (format_flags false false)
                           (export_env sparc (Method false)) project_world))))).
  - vm_compute. reflexivity.
  - vm_compute. reflexivity.
Defined.

Lemma never_exits_export_project o e : never_exits (export_project o e).
Proof.
  unfold export_project.
  apply never_exits_bind; [apply never_exits_new_snapshot|]. intros _.
  apply never_exits_bind;
    [apply never_exits_for_each; intros [n x]; apply never_exits_write|]. intros _.
  apply never_exits_bind; [apply never_exits_write|]. intros _.
  apply never_exits_bind; [apply never_exits_write|]. intros _.
  apply never_exits_bind;
    [apply never_exits_for_each; intros [n x]; apply never_exits_write|]. intros _.
  destruct (Cli.datasets o).
  - apply never_exits_bind; [apply never_exits_mkdir|]. intros _.
    apply never_exits_for_each. intros [n x].
    apply never_exits_bind; [apply never_exits_write|]. intros _.
    apply never_exits_emit.
  - destruct (Cli.debug o); [apply never_exits_emit|apply never_exits_ret].
Qed.

(** X20: [cwd.cache.is_dataset] is a bound method, and so is true
    whatever it would return when called: [export] never ends the
    process, in either mode and whatever the flags; the branch that
    prints and exits with status 123 is never taken. *)
Theorem export_never_exits (o : Cli.Options) (e : ExportEnv) (call : bool) :
  cwd_cache_is_dataset e = Method call ->
  never_exits (export o e).
Proof.
  intros Hm. unfold export. rewrite Hm. cbn [truthy negb].
  destruct (negb (bool_decide (cwd e = cwd_cache_anchor e))
            && (Cli.ttl o || Cli.json o)).
  - apply never_exits_export_dataset.
  - apply never_exits_export_project.
Qed.

(** X20, witness: a Turtle export asked for two levels below the
    project, where [is_dataset()] would return false. *)
Lemma export_never_exits_witness :
  never_exits
    (export (format_flags true false)
       (export_env (sparc ++ ["heart"; "primary"]) (Method false))).
Proof.
  apply (export_never_exits (format_flags true false)
           (export_env (sparc ++ ["heart"; "primary"]) (Method false)) false).
  reflexivity.
Defined.

End ExportEdges.

Section CloneMore.
Import Proc Main Props ProcNotions.
Local Open Scope proc_scope.

(** X21: when [pull] itself does not end the process, [clone] ends it
    only by refusing, and it refuses before anything is pulled or
    changed on disk: status 4 without a project id, 11 without the api
    secret, 3 inside a project, 2 when the destination has children. *)
Theorem clone_exit_status (o : Cli.Options) (e : CloneEnv) (w w' : world) (code : Z) :
  (forall anchor, never_exits (pull e anchor)) ->
  clone o e w = (Exit code, w') ->
  fs w' = fs w /\
  (forall p, clone o (with_pull e p) w = (Exit code, w')) /\
  (code = 4 /\ Cli.project_id_arg o = None \/
   code = 11 /\ remote_project_name e = Raise MissingSecretError \/
   code = 3 /\ (exists root, find_cache_root e = Some root) \/
   code = 2 /\ exists name,
     remote_project_name e = Ok name /\ occupied w (child (clone_cwd e) name)).
Proof.
  intros Hpull H. unfold clone in H |- *. unfold with_pull.
  cbn [clone_cwd remote_project_name find_cache_root pull].
  destruct (Cli.project_id_arg o) as [project_id|] eqn:Hid.
  2: { inversion H; subst. repeat split; auto. }
  destruct (remote_project_name e) as [name|x] eqn:Hname.
  2: { destruct x; inversion H; subst. repeat split; auto. }
  destruct (find_cache_root e) as [root|] eqn:Hroot.
  { inversion H; subst. repeat split; eauto 6. }
  unfold bindM, path_exists in H |- *. cbn [fst snd] in H |- *.
  set (there := match fs w !! child (clone_cwd e) name with
                | Some (FSymlink t) => bool_decide (is_Some (fs w !! t))
                | Some _ => true
                | None => false
                end) in *.
  destruct there eqn:Hthere.
  - unfold list_children in H |- *.
    set (cs := List.filter _ _) in *.
    destruct cs as [|c cs'] eqn:Hcs.
    + exfalso. apply (Hpull (child (clone_cwd e) name) w code).
      unfold ret in H. now rewrite H.
    + unfold sys_exit in H |- *. inversion H; subst.
      split; [reflexivity|]. split; [reflexivity|].
      right. right. right. split; [reflexivity|]. exists name.
      split; [reflexivity|]. split.
      * unfold path_exists. simpl. fold there. now rewrite Hthere.
      * exists c, cs'. unfold list_children. simpl. fold cs. now rewrite Hcs.
  - exfalso. apply (Hpull (child (clone_cwd e) name) w code).
    unfold ret in H. now rewrite H.
Qed.

(** X21, witness: [clone] next to a [SPARC] folder that has content. *)
Lemma clone_exit_status_witness :
  fs project_world = fs project_world /\
  (forall p, clone clone_options (with_pull clone_env p) project_world
             = (Exit 2, project_world)) /\
  (2 = 4 /\ Cli.project_id_arg clone_options = None \/
   2 = 11 /\ remote_project_name clone_env = Raise MissingSecretError \/
   2 = 3 /\ (exists root, find_cache_root clone_env = Some root) \/
   2 = 2 /\ exists name,
     remote_project_name clone_env = Ok name /\
     occupied project_world (child (clone_cwd clone_env) name)).
Proof.
  apply (clone_exit_status clone_options clone_env project_world project_world 2).
  - intros anchor. apply never_exits_ret.
  - vm_compute. reflexivity.
Defined.

End CloneMore.

(** * Facts about [setup.py] *)

Section FindVersion.
Import Setup SetupSamples.

Lemma strip_prefix_app (p s : str) : strip_prefix p (p ++ s) = Some s.
Proof.
  induction p as [|a p IH]; simpl; [now destruct s|].
  now rewrite N.eqb_refl.
Qed.

Lemma strip_prefix_some (p : str) : forall s r,
  strip_prefix p s = Some r -> s = p ++ r.
Proof.
  induction p as [|a p IH]; intros s r H.
  - destruct s; simpl in H; now inversion H.
  - destruct s as [|b s]; simpl in H; [discriminate|].
    destruct (N.eqb_spec a b) as [->|]; [|discriminate].
    simpl. f_equal. now apply IH.
Qed.

Lemma dot_run_app (v s : str) :
  ~ In c_newline v -> dot_run (v ++ s) = v ++ dot_run s.
Proof.
  induction v as [|c v IH]; intros Hv; [reflexivity|]. simpl.
  destruct (N.eqb_spec c c_newline) as [->|_].
  - exfalso. apply Hv. now left.
  - f_equal. apply IH. intros Hin. apply Hv. now right.
Qed.

Lemma dot_run_no_newline (s : str) : ~ In c_newline (dot_run s).
Proof.
  induction s as [|c s IH]; simpl; [tauto|].
  destruct (N.eqb_spec c c_newline) as [->|Hc]; simpl; [tauto|].
  intros [E|Hin]; [now apply Hc|now apply IH].
Qed.

(** The run is the line up to its first newline. *)
Lemma dot_run_split (s : str) :
  exists rest, s = dot_run s ++ rest.
Proof.
  induction s as [|c s [rest IH]]; simpl; [now exists []|].
  destruct (c =? c_newline)%N.
  - now exists (c :: s).
  - exists rest. simpl. now f_equal.
Qed.

Lemma dot_run_idem (s : str) : dot_run (dot_run s) = dot_run s.
Proof.
  induction s as [|c s IH]; simpl; [reflexivity|].
  destruct (c =? c_newline)%N eqn:E; simpl; [reflexivity|].
  now rewrite E, IH.
Qed.

Lemma group_none (r : str) :
  group_before_last_quote r = None <-> ~ In c_quote r.
Proof.
  induction r as [|c r IH]; simpl; [tauto|].
  destruct (group_before_last_quote r) as [g|].
  - split; [discriminate|]. intros Hn. exfalso.
    assert (Hr : ~ In c_quote r) by tauto.
    apply IH in Hr. discriminate.
  - destruct (N.eqb_spec c c_quote) as [->|Hc].
    + split; [discriminate|]. intros Hn. exfalso. apply Hn. now left.
    + split; [|reflexivity]. intros _ [E|Hin]; [now apply Hc|].
      now apply (proj1 IH).
Qed.

Lemma group_some (r : str) : forall g,
  group_before_last_quote r = Some g <->
  exists t, r = g ++ c_quote :: t /\ ~ In c_quote t.
Proof.
  induction r as [|c r IH]; intros g; simpl.
  - split; [discriminate|]. intros (t & E & _). now destruct g.
  - destruct (group_before_last_quote r) as [g'|] eqn:Hg.
    + split.
      * intros E. inversion E; subst.
        destruct (proj1 (IH g') eq_refl) as (t & -> & Ht).
        now exists t.
      * intros (t & E & Ht). destruct g as [|c' g].
        -- simpl in E. inversion E; subst.
           apply group_none in Ht. rewrite Ht in Hg. discriminate.
        -- simpl in E. inversion E; subst. f_equal. f_equal.
           assert (H : Some g' = Some g).
           { apply IH. now exists t. }
           now inversion H.
    + apply group_none in Hg. split.
      * destruct (N.eqb_spec c c_quote) as [->|Hc]; [|discriminate].
        intros E. inversion E; subst. now exists r.
      * intros (t & E & Ht). destruct g as [|c' g].
        -- simpl in E. inversion E; subst. now rewrite N.eqb_refl.
        -- simpl in E. inversion E; subst. exfalso. apply Hg.
           apply in_or_app. right. now left.
Qed.

Lemma version_match_written (v tail : str) :
  ~ In c_newline v ->
  ~ In c_quote (dot_run tail) ->
  version_match (version_prefix ++ v ++ c_quote :: tail) = Some v.
Proof.
  intros Hv Ht. unfold version_match. rewrite strip_prefix_app.
  rewrite dot_run_app by exact Hv.
  change (dot_run (c_quote :: tail)) with (c_quote :: dot_run tail).
  apply group_some. now exists (dot_run tail).
Qed.

Lemma version_match_inv (line v : str) :
  version_match line = Some v ->
  ~ In c_newline v /\
  exists tail,
    line = version_prefix ++ v ++ c_quote :: tail /\
    ~ In c_quote (dot_run tail).
Proof.
  unfold version_match. intros H.
  destruct (strip_prefix version_prefix line) as [rest|] eqn:Hp; [|discriminate].
  apply strip_prefix_some in Hp. subst line.
  apply group_some in H as (t & E & Ht).
  destruct (dot_run_split rest) as [more Hrest].
  assert (Hnl : ~ In c_newline (v ++ c_quote :: t)).
  { rewrite <- E. apply dot_run_no_newline. }
  assert (Hv : ~ In c_newline v).
  { intros Hin. apply Hnl. apply in_or_app. now left. }
  split; [exact Hv|].
  exists (t ++ more). split.
  - rewrite Hrest at 1. rewrite E. now rewrite <- app_assoc.
  - assert (Hd : dot_run rest = v ++ c_quote :: dot_run (t ++ more)).
    { rewrite Hrest at 1. rewrite E. rewrite <- app_assoc.
      rewrite dot_run_app by exact Hv. reflexivity. }
    rewrite E in Hd. apply app_inv_head in Hd. injection Hd as Hd'.
    intros Hin. apply Ht. rewrite Hd'. exact Hin.
Qed.

Lemma find_version_cons (line : str) (rest : list str) :
  find_version (line :: rest) =
    match version_match line with
    | Some v => Some v
    | None => find_version rest
    end.
Proof. reflexivity. Qed.

(** X22: [find_version] gives back a version that was written between
    quotes after [__version__ = ] at the start of a line: any text
    without a newline, quotes included, as long as no quote follows the
    closing one on that line and no earlier line matches. *)
Theorem find_version_recovers (before after : list str) (v tail : str) :
  Forall (fun line => version_match line = None) before ->
  ~ In c_newline v ->
  ~ In c_quote (dot_run tail) ->
  find_version (before ++ (version_prefix ++ v ++ c_quote :: tail) :: after) = Some v.
Proof.
  intros Hb Hv Ht. induction Hb as [|line before Hl _ IH].
  - rewrite app_nil_l, find_version_cons.
    now rewrite version_match_written.
  - rewrite <- app_comm_cons, find_version_cons. now rewrite Hl.
Qed.

(** X22, witness: a version line after a comment line. *)
Lemma find_version_recovers_witness :
  find_version
    ([docstring_line]
       ++ (version_prefix ++ lit "0.0.1" ++ c_quote :: [c_newline])
       :: [docstring_line]) = Some (lit "0.0.1").
Proof.
  apply (find_version_recovers [docstring_line] [docstring_line]
           (lit "0.0.1") [c_newline]).
  - repeat constructor.
  - vm_compute. intuition discriminate.
  - vm_compute. intuition discriminate.
Defined.

(** X23: whatever [find_version] returns stands on the first line that
    matches, between the opening quote and the last quote of that line,
    and contains no newline; a quote in a trailing comment therefore
    moves the end of the version. *)
Theorem find_version_sound (lines : list str) (v : str) :
  find_version lines = Some v ->
  ~ In c_newline v /\
  exists before tail after,
    lines = before ++ (version_prefix ++ v ++ c_quote :: tail) :: after /\
    Forall (fun line => version_match line = None) before /\
    ~ In c_quote (dot_run tail).
Proof.
  induction lines as [|line lines IH]; simpl; [discriminate|].
  destruct (version_match line) as [v'|] eqn:Hm.
  - intros E. inversion E; subst v'.
    destruct (version_match_inv _ _ Hm) as [Hv (tail & -> & Ht)].
    split; [exact Hv|]. exists [], tail, lines. repeat split; [constructor|exact Ht].
  - intros H. destruct (IH H) as [Hv (before & tail & after & -> & Hb & Ht)].
    split; [exact Hv|]. exists (line :: before), tail, after.
    repeat split; [now constructor|exact Ht].
Qed.

(** X23, witness: the comment after the version has a quote in it. *)
Lemma find_version_sound_witness :
  ~ In c_newline (lit "0.0.1'  # don") /\
  exists before tail after,
    [docstring_line; commented_line] =
      before ++ (version_prefix ++ lit "0.0.1'  # don" ++ c_quote :: tail) :: after /\
    Forall (fun line => version_match line = None) before /\
    ~ In c_quote (dot_run tail).
Proof.
  apply (find_version_sound [docstring_line; commented_line] (lit "0.0.1'  # don")).
  vm_compute. reflexivity.
Defined.

End FindVersion.

(** * Further facts about [FileSize] *)

Section FileSizeMbFacts.
Import FileSizeM FileSizeMb.

(** X24: for every size below [2^53] bytes and every limit,
    [size.mb < limit] raises nothing and holds exactly when the size is
    below [limit] mebibytes: the division by [2^20] loses nothing. *)
Theorem mb_below_exact (size limit : Z) :
  Z.abs size < 2 ^ 53 ->
  mb_below size limit = Ok (size <? limit * 1048576).
Proof.
  intros H. unfold mb_below. rewrite (mb_small size H).
  unfold bind, lt_int. reflexivity.
Qed.

(** X24, witness: a file of 3 MiB less one byte against [--limit=3]. *)
Lemma mb_below_exact_witness :
  mb_below 3145727 3 = Ok (3145727 <? 3 * 1048576).
Proof.
  apply (mb_below_exact 3145727 3). reflexivity.
Defined.

End FileSizeMbFacts.

(** * Facts about the counting reports of [sparcur/cli.py] *)

Section CountsFacts.
Import Cli Counts CountsNotions.

Lemma sum_counter_add {K} `{EqDecision K} (k : K) (c : list (K * Z)) :
  sum_counts (counter_add k c) = sum_counts c + 1.
Proof.
  unfold sum_counts. induction c as [|[k' n] c IH]; simpl; [lia|].
  destruct (bool_decide (k' = k)); simpl; lia.
Qed.

Lemma positive_counter_add {K} `{EqDecision K} (k : K) (c : list (K * Z)) :
  Forall (fun r => 0 < snd r) c -> Forall (fun r => 0 < snd r) (counter_add k c).
Proof.
  induction 1 as [|[k' n] c Hn Hc IH]; simpl.
  - repeat constructor.
  - destruct (bool_decide (k' = k)); constructor; simpl in *; try lia; assumption.
Qed.

Lemma counter_fold {K} `{EqDecision K} (values : list K) : forall c,
  Forall (fun r => 0 < snd r) c ->
  sum_counts (fold_left (fun c k => counter_add k c) values c)
    = sum_counts c + Z.of_nat (length values) /\
  Forall (fun r => 0 < snd r) (fold_left (fun c k => counter_add k c) values c).
Proof.
  induction values as [|k values IH]; intros c Hc; simpl fold_left.
  - simpl. split; [lia|exact Hc].
  - destruct (IH (counter_add k c) (positive_counter_add k c Hc)) as [Hs Hp].
    split; [|exact Hp]. rewrite Hs, sum_counter_add. simpl length. lia.
Qed.

Lemma insert_by_perm {A} (lt : A -> A -> bool) (x : A) (l : list A) :
  Permutation (insert_by lt x l) (x :: l).
Proof.
  induction l as [|y l IH]; simpl; [reflexivity|].
  destruct (lt y x); [|reflexivity].
  rewrite IH. apply perm_swap.
Qed.

Lemma sorted_by_perm {A} (lt : A -> A -> bool) (l : list A) :
  Permutation (sorted_by lt l) l.
Proof.
  induction l as [|x l IH]; simpl; [reflexivity|].
  rewrite insert_by_perm. now constructor.
Qed.

Lemma sum_counts_perm {K} (a b : list (K * Z)) :
  Permutation a b -> sum_counts a = sum_counts b.
Proof.
  unfold sum_counts. induction 1; simpl; lia.
Qed.

Lemma sum_counts_label (c : list (option string * Z)) :
  sum_counts (List.map (fun '(k, v) => (label k, v)) c) = sum_counts c.
Proof.
  unfold sum_counts. induction c as [|[k v] c IH]; simpl; [reflexivity|].
  now rewrite IH.
Qed.

(** X25: in every table of [report filetypes] the counts add up to the
    number of paths below the given ones that are not directories,
    whatever the attribute and the order of the rows, and no row has a
    count below one. *)
Theorem count_conserves (sort_count_desc : bool) (attr : Path -> option string)
    (given : list Path) :
  sum_counts (count sort_count_desc attr (files_below given))
    = Z.of_nat (length (files_below given)) /\
  Forall (fun r => 0 < snd r) (count sort_count_desc attr (files_below given)).
Proof.
  generalize (files_below given). intros paths. unfold count.
  destruct (counter_fold (List.map attr paths) [] (Forall_nil_2 _)) as [Hs Hp].
  fold (Counter (List.map attr paths)) in Hs, Hp.
  split.
  - rewrite (sum_counts_perm _ _ (sorted_by_perm _ _)), sum_counts_label, Hs.
    rewrite length_map. reflexivity.
  - eapply Permutation_Forall; [symmetry; apply sorted_by_perm|].
    apply Forall_forall. intros [s v] Hin.
    apply list_elem_of_In, in_map_iff in Hin as ([k v'] & E & Hin).
    inversion E; subst. rewrite Forall_forall in Hp.
    apply (Hp (k, v)). now apply list_elem_of_In.
Qed.

Lemma insert_by_descending (x : string * Z) (l : list (string * Z)) :
  descending l -> descending (insert_by (_sort_key_lt true) x l).
Proof.
  unfold descending. induction 1 as [|y l Hl IH Hy]; simpl.
  - repeat constructor.
  - destruct (Z.ltb_spec (- snd y) (- snd x)) as [Hlt|Hge].
    + constructor; [exact IH|].
      eapply Permutation_Forall; [symmetry; apply insert_by_perm|].
      constructor; [lia|exact Hy].
    + constructor; [now constructor|].
      constructor; [lia|].
      eapply Forall_impl; [exact Hy|]. intros r Hr. simpl in Hr. lia.
Qed.

Lemma insert_by_filter (lt : string * Z -> string * Z -> bool) (n : Z)
    (x : string * Z) (l : list (string * Z)) :
  (forall y, lt y x = true -> snd y <> snd x) ->
  List.filter (fun r => snd r =? n) (insert_by lt x l) =
  List.filter (fun r => snd r =? n) (x :: l).
Proof.
  intros Hlt. induction l as [|y l IH]; [reflexivity|].
  simpl insert_by. destruct (lt y x) eqn:E; [|reflexivity].
  simpl. simpl in IH. rewrite IH.
  destruct (Z.eqb_spec (snd x) n) as [Hx|Hx]; [|reflexivity].
  destruct (Z.eqb_spec (snd y) n) as [Hy|Hy]; [|reflexivity].
  exfalso. apply (Hlt y E). lia.
Qed.

(** X26: with [--sort-count-desc] the rows of a [report filetypes]
    table come in descending order of count, and the rows that share a
    count keep the order in which their values were first seen. *)
Theorem count_sorted_desc (attr : Path -> option string) (given : list Path) (n : Z) :
  descending (count true attr (files_below given)) /\
  List.filter (fun r => snd r =? n) (count true attr (files_below given)) =
  List.filter (fun r => snd r =? n)
    (List.map (fun '(k, v) => (label k, v))
       (Counter (List.map attr (files_below given)))).
Proof.
  generalize (files_below given). intros paths.
  unfold count. generalize (List.map (fun '(k, v) => (label k, v))
                              (Counter (List.map attr paths))).
  intros rows. split.
  - induction rows as [|x rows IH]; simpl; [constructor|].
    now apply insert_by_descending.
  - induction rows as [|x rows IH]; [reflexivity|].
    simpl sorted_by. rewrite insert_by_filter.
    + simpl. now rewrite IH.
    + intros y Hy. simpl in Hy. apply Z.ltb_lt in Hy. lia.
Qed.

End CountsFacts.

(** * Further facts about [Main.find] *)

Section FindRest.
Import Cli Proc Props FindM FindNotions.
Local Open Scope proc_scope.










End FindRest.
